(** * ProsemirrorHelper: document analyses over a ProseMirror tree

    A shallow embedding of [shared/utils/ProsemirrorHelper.ts] together with
    the part of the prosemirror-model library it calls ([Node], [TextNode],
    [Fragment]): node sizes, [nodesBetween] / [descendants], [textContent],
    [cut].  Strings are sequences of code units below 256; numbers that the
    code uses as positions and counters are integers. *)

From Stdlib Require Import ZArith Lia Ascii String.
From stdpp Require Import base gmap strings list pretty.

Open Scope Z_scope.

(** * The model *)

(** ** JavaScript strings and values *)

Module JsString.

(** Code units that [String.prototype.trim] removes (the ones below 256):
    TAB, LF, VT, FF, CR, SPACE and NBSP. *)
Definition isWhiteSpace (c : ascii) : bool :=
  let n := Ascii.nat_of_ascii c in
  ((9 <=? n) && (n <=? 13) || (n =? 32) || (n =? 160))%nat.

Fixpoint trimStart (s : string) : string :=
  match s with
  | EmptyString => EmptyString
  | String c s' => if isWhiteSpace c then trimStart s' else s
  end.

Fixpoint trimEnd (s : string) : string :=
  match s with
  | EmptyString => EmptyString
  | String c s' =>
      match trimEnd s' with
      | EmptyString => if isWhiteSpace c then EmptyString else String c EmptyString
      | r => String c r
      end
  end.

(** [s.trim()] *)
Definition trim (s : string) : string := trimEnd (trimStart s).

(** [s.trim() === ""] *)
Definition isBlank (s : string) : bool :=
  match trim s with EmptyString => true | _ => false end.

(** [s.slice(from, to)]: negative indices count from the end, both ends are
    clamped to the string. *)
Definition slice (s : string) (from to : Z) : string :=
  let len := Z.of_nat (String.length s) in
  let k := if from <? 0 then Z.max (len + from) 0 else Z.min from len in
  let e := if to <? 0 then Z.max (len + to) 0 else Z.min to len in
  String.substring (Z.to_nat k) (Z.to_nat (e - k)) s.

Definition allWhiteSpace (s : string) : bool :=
  forallb isWhiteSpace (String.list_ascii_of_string s).

End JsString.

(** The attribute values the analyses read. *)
Inductive JSValue : Type :=
| JUndefined
| JNull
| JBool (b : bool)
| JNum (n : Z)
| JStr (s : string).

#[global] Instance JSValue_eq_dec : EqDecision JSValue.
Proof. solve_decision. Defined.

(** ToBoolean, as applied by [Array.prototype.filter] to the callback's
    result. *)
Definition toBoolean (v : JSValue) : bool :=
  match v with
  | JUndefined | JNull => false
  | JBool b => b
  | JNum n => negb (n =? 0)
  | JStr s => negb (String.eqb s "")
  end.

(** An attribute object: own keys to values. *)
Abbreviation Attrs := (gmap string JSValue).

(** [obj.key]: a missing key reads as [undefined]. *)
Definition getProp (o : Attrs) (key : string) : JSValue :=
  default JUndefined (o !! key).

(** ** The ProseMirror tree *)

Record Mark : Type := mkMark {
  mark_name : string;   (* mark.type.name *)
  mark_attrs : Attrs
}.

(** What the analyses read of a node type: [name], [spec.inline], whether the
    content expression is empty ([isLeaf]) and whether it allows inline
    content. *)
Record NodeType : Type := mkNodeType {
  name : string;
  inline : bool;
  leaf : bool;
  inlineContent : bool
}.

Local Unset Elimination Schemes.

(** [TextNode] is the library's subclass for nodes of the type named "text";
    [Elem] is every other node.  A fragment is the list of its nodes. *)
Inductive Node : Type :=
| TextNode (text : string) (marks : list Mark)
| Elem (type : NodeType) (attrs : Attrs) (content : list Node) (marks : list Mark).

Local Set Elimination Schemes.

Section Node_induction.
Variable P : Node → Prop.
Hypothesis P_text : ∀ s ms, P (TextNode s ms).
Hypothesis P_elem : ∀ ty at_ cs ms, Forall P cs → P (Elem ty at_ cs ms).

Fixpoint Node_ind (n : Node) : P n :=
  match n with
  | TextNode s ms => P_text s ms
  | Elem ty at_ cs ms =>
      P_elem ty at_ cs ms
        ((fix all (l : list Node) : Forall P l :=
            match l with
            | [] => List.Forall_nil P
            | c :: l' => List.Forall_cons P c l' (Node_ind c) (all l')
            end) cs)
  end.
End Node_induction.

Definition typeName (n : Node) : string :=
  match n with
  | TextNode _ _ => "text"
  | Elem ty _ _ _ => name ty
  end.

Definition isText (n : Node) : bool :=
  match n with TextNode _ _ => true | Elem _ _ _ _ => false end.

(** [isBlock = !(spec.inline || name == "text")] *)
Definition isBlock (n : Node) : bool :=
  match n with
  | TextNode _ _ => false
  | Elem ty _ _ _ => negb (inline ty)
  end.

Definition isLeaf (n : Node) : bool :=
  match n with
  | TextNode _ _ => true
  | Elem ty _ _ _ => leaf ty
  end.

(** [isTextblock = isBlock && inlineContent] *)
Definition isTextblock (n : Node) : bool :=
  match n with
  | TextNode _ _ => false
  | Elem ty _ _ _ => negb (inline ty) && inlineContent ty
  end.

(** [node.attrs]; the text type declares no attributes. *)
Definition nodeAttrs (n : Node) : Attrs :=
  match n with
  | TextNode _ _ => ∅
  | Elem _ at_ _ _ => at_
  end.

Definition nodeMarks (n : Node) : list Mark :=
  match n with
  | TextNode _ ms => ms
  | Elem _ _ _ ms => ms
  end.

(** [node.content]; a text node has the empty fragment. *)
Definition children (n : Node) : list Node :=
  match n with
  | TextNode _ _ => []
  | Elem _ _ cs _ => cs
  end.

(** [nodeSize]: the text length for a text node, 1 for a leaf, otherwise the
    content size plus the two boundary tokens. *)
Fixpoint nodeSize (n : Node) : Z :=
  match n with
  | TextNode s _ => Z.of_nat (String.length s)
  | Elem ty _ cs _ =>
      if leaf ty then 1
      else 2 + (fix sum (l : list Node) : Z :=
                  match l with
                  | [] => 0
                  | c :: l' => nodeSize c + sum l'
                  end) cs
  end.

(** [fragment.size] *)
Fixpoint fragmentSize (l : list Node) : Z :=
  match l with
  | [] => 0
  | c :: l' => nodeSize c + fragmentSize l'
  end.

(** [node.content.size] *)
Definition contentSize (n : Node) : Z := fragmentSize (children n).

(** [node.childCount] *)
Definition childCount (n : Node) : Z := Z.of_nat (length (children n)).

(** Well-formed trees, as the library's constructors build them: a text node
    has non-empty text, only [TextNode] carries the type name "text", and a
    node of a leaf type has no content.  The content expressions of a
    schema, such as a document having at least one block, are not part of
    it. *)
Fixpoint wf (n : Node) : bool :=
  match n with
  | TextNode s _ => negb (String.eqb s "")
  | Elem ty _ cs _ =>
      negb (String.eqb (name ty) "text")
      && (negb (leaf ty) || bool_decide (cs = []))
      && forallb wf cs
  end.

(** ** Traversal: [nodesBetween], [descendants], [forEach] *)

Section Traversal.
Context {S : Type}.

(** The callback gets the node and its absolute position and the state so
    far; it returns the new state and [false] exactly when the JavaScript
    callback returns [false] (do not descend). *)
Variable f : Node → Z → S → S * bool.

(** [node.nodesBetween(from, to, f, startPos)], that is
    [node.content.nodesBetween(from, to, f, startPos, node)].  The loop
    reads [content[i]] while [pos < to]; at the end of the list [pos] is
    the fragment size, so for [to <= size], as in every call below, the
    list is never overrun and the case of the empty list under [pos < to]
    is not reached. *)
Fixpoint nodesBetween (n : Node) (from to startPos : Z) (st : S) {struct n} : S :=
  match n with
  | TextNode _ _ => st
  | Elem _ _ cs _ =>
      (fix loop (l : list Node) (pos : Z) (st : S) {struct l} : S :=
         if pos <? to then
           match l with
           | [] => st
           | child :: l' =>
               let end_ := pos + nodeSize child in
               let st' :=
                 if end_ >? from then
                   let '(st1, descend) := f child (startPos + pos) st in
                   if descend && negb (contentSize child =? 0) then
                     let start := pos + 1 in
                     nodesBetween child (Z.max 0 (from - start))
                       (Z.min (contentSize child) (to - start))
                       (startPos + start) st1
                   else st1
                 else st in
               loop l' end_ st'
           end
         else st) cs 0 st
  end.

(** [fragment.nodesBetween(from, to, f, nodeStart)], started at child
    offset [pos]. *)
Fixpoint fragmentNodesBetween (l : list Node) (from to startPos pos : Z) (st : S) : S :=
  if pos <? to then
    match l with
    | [] => st
    | child :: l' =>
        let end_ := pos + nodeSize child in
        let st' :=
          if end_ >? from then
            let '(st1, descend) := f child (startPos + pos) st in
            if descend && negb (contentSize child =? 0) then
              let start := pos + 1 in
              nodesBetween child (Z.max 0 (from - start))
                (Z.min (contentSize child) (to - start))
                (startPos + start) st1
            else st1
          else st in
        fragmentNodesBetween l' from to startPos end_ st'
    end
  else st.

(** [node.descendants(f)] *)
Definition descendants (n : Node) (st : S) : S :=
  nodesBetween n 0 (contentSize n) 0 st.

(** Pre-order walk of a fragment: visit a node, then (unless the callback
    declined) its content, then its right siblings. *)
Fixpoint walkNode (n : Node) (p : Z) (st : S) {struct n} : S :=
  let '(st1, descend) := f n p st in
  if descend then
    match n with
    | TextNode _ _ => st1
    | Elem _ _ cs _ =>
        (fix go (l : list Node) (q : Z) (st : S) {struct l} : S :=
           match l with
           | [] => st
           | c :: l' => go l' (q + nodeSize c) (walkNode c q st)
           end) cs (p + 1) st1
    end
  else st1.

Fixpoint walk (l : list Node) (p : Z) (st : S) : S :=
  match l with
  | [] => st
  | c :: l' => walk l' (p + nodeSize c) (walkNode c p st)
  end.

End Traversal.

(** [node.forEach(f)]: the callback is applied to the direct children in
    order. *)
Definition forEach {S : Type} (f : Node → S → S) (n : Node) (st : S) : S :=
  fold_left (λ st c, f c st) (children n) st.

(** [inside n l]: the node [n] is in the fragment [l] or in the content of
    a node inside it; these are the nodes a traversal of [l] can reach. *)
Inductive inside (n : Node) : list Node → Prop :=
| inside_here l : n ∈ l → inside n l
| inside_below c l : c ∈ l → inside n (children c) → inside n l.

(** ** Text of a node *)

(** The fields of a node type's spec that the analyses read: the custom
    plain-text serializer and the library's [leafText]. *)
Record NodeSpec : Type := mkNodeSpec {
  spec_toPlainText : option (Node → string);
  spec_leafText : option (Node → string)
}.

(** [schema.nodes]: type name to node type. *)
Abbreviation Schema := (gmap string NodeSpec).

Definition nonEmpty (s : string) : bool := negb (String.eqb s "").

(** One step of [if (first) first = false; else text += blockSeparator]
    under its guard. *)
Definition separate (guard : bool) (blockSeparator : string) (st : string * bool)
  : string * bool :=
  let '(text, first) := st in
  if guard then (if first then (text, false) else (text +:+ blockSeparator, first))
  else (text, first).

Section Text.
Variable schema : Schema.

(** [node.type.spec.leafText] *)
Definition leafTextOf (node : Node) : option (Node → string) :=
  schema !! typeName node ≫= spec_leafText.

(** The callback of [Fragment.textBetween(from, to, blockSeparator)]; it
    returns nothing, so the traversal always descends. *)
Definition textBetweenVisit (from to : Z) (blockSeparator : string)
    (node : Node) (pos : Z) (st : string * bool) : (string * bool) * bool :=
  let nodeText :=
    match node with
    | TextNode s _ => JsString.slice s (Z.max from pos - pos) (to - pos)
    | Elem _ _ _ _ =>
        if negb (isLeaf node) then ""
        else match leafTextOf node with
             | Some g => g node
             | None => ""
             end
    end in
  let '(text, first) :=
    separate (isBlock node
              && (isLeaf node && nonEmpty nodeText || isTextblock node)
              && nonEmpty blockSeparator) blockSeparator st in
  (text +:+ nodeText, first, true).

(** [fragment.textBetween(from, to, blockSeparator)] *)
Definition fragmentTextBetween (l : list Node) (from to : Z) (blockSeparator : string)
  : string :=
  fst (fragmentNodesBetween (textBetweenVisit from to blockSeparator)
         l from to 0 0 ("", true)).

(** [node.textContent] *)
Definition textContent (node : Node) : string :=
  match node with
  | TextNode s _ => s
  | Elem _ _ cs _ =>
      match (if isLeaf node then leafTextOf node else None) with
      | Some g => g node
      | None => fragmentTextBetween cs 0 (fragmentSize cs) ""
      end
  end.
End Text.

(** The block separator of plain-text extraction: a line feed. *)
Definition blockSeparator : string := String (Ascii.ascii_of_nat 10) "".

(** Modelled from the spec: [textBetween] (shared/editor/lib/textBetween) is
    not among the sources.  Section 4.1: the walk is depth-first, left to
    right, over the given range of the root's content; a node whose type has
    a registered serializer contributes the serializer's result and is not
    descended into; otherwise a text node contributes its literal text and
    any other node is descended into; one block separator is put between the
    text runs of two block-level nodes (before every textblock or non-empty
    block leaf but the first, as the tree's own text extraction does when it
    is given a separator). *)
Definition plainTextVisit (plainTextSerializers : gmap string (Node → string))
    (node : Node) (pos : Z) (st : string * bool) : (string * bool) * bool :=
  let toPlainText := plainTextSerializers !! typeName node in
  let nodeText :=
    match toPlainText with
    | Some g => g node
    | None => match node with
              | TextNode s _ => s
              | Elem _ _ _ _ => ""
              end
    end in
  let '(text, first) :=
    separate (isBlock node && (isLeaf node && nonEmpty nodeText || isTextblock node))
      blockSeparator st in
  (text +:+ nodeText, first, bool_decide (toPlainText = None)).

(** Modelled from the spec: [textBetween(doc, from, to, serializers)], the
    walk of [plainTextVisit] over the range, from the empty text. *)
Definition textBetween (doc : Node) (from to : Z)
    (plainTextSerializers : gmap string (Node → string)) : string :=
  fst (nodesBetween (plainTextVisit plainTextSerializers) doc from to 0 ("", true)).

(** ** [cut] *)

(** [child.text.length] *)
Definition textLength (n : Node) : Z :=
  match n with
  | TextNode s _ => Z.of_nat (String.length s)
  | Elem _ _ _ _ => 0
  end.

(** [node.cut(from, to)].  [None] is a thrown exception: the fragment loop
    reading past its last child ([to] beyond the fragment size), or a text
    node left with no text.  [TextNode.cut] keeps the node when the slice is
    the whole text; [Node.cut] keeps it when the range is the whole content
    and otherwise builds a copy around [content.cut(from, to)]. *)
Fixpoint cut (n : Node) (from to : Z) {struct n} : option Node :=
  match n with
  | TextNode s ms =>
      if (from =? 0) && (to =? Z.of_nat (String.length s)) then Some n
      else
        let s' := JsString.slice s from to in
        if String.eqb s' s then Some n
        else if String.eqb s' "" then None
        else Some (TextNode s' ms)
  | Elem ty at_ cs ms =>
      if (from =? 0) && (to =? fragmentSize cs) then Some n
      else
        cs' ← (if to >? from then
                 (fix loop (l : list Node) (pos : Z) {struct l} : option (list Node) :=
                    if pos <? to then
                      match l with
                      | [] => None
                      | child :: l' =>
                          let end_ := pos + nodeSize child in
                          if end_ >? from then
                            child' ← (if (pos <? from) || (end_ >? to) then
                                         if isText child then
                                           cut child (Z.max 0 (from - pos))
                                             (Z.min (textLength child) (to - pos))
                                         else
                                           cut child (Z.max 0 (from - pos - 1))
                                             (Z.min (contentSize child) (to - pos - 1))
                                       else Some child);
                            rest ← loop l' end_;
                            Some (child' :: rest)
                          else loop l' end_
                      end
                    else Some []) cs 0
               else Some []);
        Some (Elem ty at_ cs' ms)
  end.

(** The loop of [fragment.cut(from, to)] from child offset [pos] on. *)
Fixpoint fragmentCutLoop (from to : Z) (l : list Node) (pos : Z) : option (list Node) :=
  if pos <? to then
    match l with
    | [] => None
    | child :: l' =>
        let end_ := pos + nodeSize child in
        if end_ >? from then
          child' ← (if (pos <? from) || (end_ >? to) then
                       if isText child then
                         cut child (Z.max 0 (from - pos))
                           (Z.min (textLength child) (to - pos))
                       else
                         cut child (Z.max 0 (from - pos - 1))
                           (Z.min (contentSize child) (to - pos - 1))
                     else Some child);
          rest ← fragmentCutLoop from to l' end_;
          Some (child' :: rest)
        else fragmentCutLoop from to l' end_
    end
  else Some [].

(** * ProsemirrorHelper *)

Record Heading : Type := mkHeading {
  heading_title : string;
  heading_level : JSValue;
  heading_id : string
}.

(** A [CommentMark] is the object built by spreading the mark's attributes
    and then setting [text]; it is kept as the object it is. *)
Abbreviation CommentMark := (gmap string JSValue).

Record Task : Type := mkTask {
  task_text : string;
  task_completed : JSValue
}.

Record TasksSummary : Type := mkTasksSummary {
  completed : Z;
  total : Z
}.

Definition docType : NodeType :=
  {| name := "doc"; inline := false; leaf := false; inlineContent := false |}.

Definition paragraphType : NodeType :=
  {| name := "paragraph"; inline := false; leaf := false; inlineContent := true |}.

(** [getEmptyDocument]: the JSON literal, as the tree it denotes: a "doc"
    whose content is one "paragraph" with empty content. *)
Definition getEmptyDocument : Node :=
  Elem docType ∅ [Elem paragraphType ∅ [] []] [].

(** [toPlainText(root, schema)]: the serializers are the entries of
    [schema.nodes] whose spec has [toPlainText]. *)
Definition toPlainText (root : Node) (schema : Schema) : string :=
  let textSerializers := omap spec_toPlainText schema in
  textBetween root 0 (contentSize root) textSerializers.

(** Modelled from the spec: [headingToSlug] (shared/editor/lib/headingToSlug)
    is not among the sources.  Section 4.6: the base id is a slug of the
    heading's text content, computed by the external slugify collaborator;
    called with a disambiguation parameter [k] it appends a numeric suffix,
    as in "intro-1", "intro-2". *)
Definition headingToSlug (slugify : string → string) (textContent : Node → string)
    (node : Node) (index : option Z) : string :=
  match index with
  | None => slugify (textContent node)
  | Some k => slugify (textContent node) +:+ "-" +:+ pretty k
  end.

(** ** The object [previouslySeen] of [getHeadings] *)

(** A value read from [previouslySeen]: a count, or a value that is not a
    number.  The object starts as [{}], so a name it does not hold itself
    is looked up in [Object.prototype], where it finds a function (for
    [__proto__] the prototype object).  Such a value is not greater than 0
    and differs from undefined, and adding 1 to it gives a string that does
    not read as a number either; all of these are [SeenOther].  (A write
    to [__proto__] is taken by the inherited setter, which ignores a
    string, so the next read finds the prototype object again: the reads
    are those of an own [SeenOther].) *)
Inductive Seen : Type :=
  | SeenCount (k : Z)
  | SeenOther.

(** The property names of [Object.prototype]. *)
Definition objectPrototypeKeys : list string :=
  [ "constructor"; "hasOwnProperty"; "isPrototypeOf"; "propertyIsEnumerable";
    "toLocaleString"; "toString"; "valueOf"; "__proto__";
    "__defineGetter__"; "__defineSetter__"; "__lookupGetter__"; "__lookupSetter__" ].

Definition inheritedKey (key : string) : bool :=
  existsb (String.eqb key) objectPrototypeKeys.

(** [previouslySeen[id]]: the object's own property, else the inherited
    one, else undefined ([None]). *)
Definition seenAt (previouslySeen : gmap string Seen) (id : string) : option Seen :=
  match previouslySeen !! id with
  | Some seen => Some seen
  | None => if inheritedKey id then Some SeenOther else None
  end.

(** [previouslySeen[id] + 1] for a value that is not undefined. *)
Definition seenPlusOne (seen : Seen) : Seen :=
  match seen with
  | SeenCount k => SeenCount (k + 1)
  | SeenOther => SeenOther
  end.

Section Helper.
(** [doc.type.schema] *)
Variable schema : Schema.
(** The external slugify collaborator. *)
Variable slugify : string → string.

(** [toPlainText(node, schema).trim() === ""] *)
Definition emptyText (node : Node) : bool :=
  JsString.isBlank (toPlainText node schema).

(** The first loop of [trim]: [rest] is the list of children from [index]
    on, so [maybeChild(index++)] is its head, and [null] when it is empty. *)
Fixpoint scanStart (rest : list Node) (start : Z) : Z :=
  match rest with
  | [] => start
  | node :: rest' =>
      if emptyText node then scanStart rest' (start + nodeSize node) else start
  end.

(** The second loop: [rest] is the list of children from [index] down to
    the first one, so [maybeChild(index--)] is its head, and [null] once
    [index] is -1. *)
Fixpoint scanEnd (rest : list Node) (end_ : Z) : Z :=
  match rest with
  | [] => end_
  | node :: rest' =>
      if emptyText node then scanEnd rest' (end_ - nodeSize node) else end_
  end.

Definition trimStart (doc : Node) : Z := scanStart (children doc) 0.

Definition trimEnd (doc : Node) : Z :=
  scanEnd (rev (children doc)) (nodeSize doc - 2).

Definition trim (doc : Node) : option Node :=
  if childCount doc <=? 1 then Some doc
  else cut doc (trimStart doc) (trimEnd doc).

(** [isEmpty(doc)]; [None] is an absent document. *)
Definition isEmpty (doc : option Node) : bool :=
  match doc with
  | None => true
  | Some d => JsString.isBlank (textContent schema d)
  end.

Definition commentVisit (node : Node) (pos : Z) (comments : list CommentMark)
  : list CommentMark * bool :=
  (fold_left
     (λ comments mark,
        if String.eqb (mark_name mark) "comment" then
          comments ++ [<["text" := JStr (textContent schema node)]> (mark_attrs mark)]
        else comments)
     (nodeMarks node) comments,
   true).

Definition getComments (doc : Node) : list CommentMark :=
  descendants commentVisit doc [].

(** The text of a checklist item: the text content of its direct
    paragraph children. *)
Definition itemText (listItem : Node) : string :=
  forEach
    (λ contentNode text,
       if String.eqb (typeName contentNode) "paragraph" then
         text +:+ textContent schema contentNode
       else text)
    listItem "".

Definition taskVisit (node : Node) (pos : Z) (tasks : list Task) : list Task * bool :=
  if negb (isBlock node) then (tasks, false)
  else
    (if String.eqb (typeName node) "checkbox_list" then
       forEach
         (λ listItem tasks,
            tasks ++ [{| task_text := itemText listItem;
                         task_completed := getProp (nodeAttrs listItem) "checked" |}])
         node tasks
     else tasks,
     true).

Definition getTasks (doc : Node) : list Task :=
  descendants taskVisit doc [].

Definition getTasksSummary (doc : Node) : TasksSummary :=
  let tasks := getTasks doc in
  {| completed := Z.of_nat (length (filter (λ t, toBoolean (task_completed t) = true) tasks));
     total := Z.of_nat (length tasks) |}.

(** The body of the [forEach] callback of [getHeadings]; [previouslySeen]
    is the object used as a map from base id to count, read through its
    prototype chain by [seenAt].  The test [previouslySeen[id] > 0] holds
    of a positive count only, and [headingToSlug] is called with that
    count; the value written back is the count plus one, 1 where the read
    gave undefined, and a value that is not a number otherwise. *)
Definition headingVisit (node : Node) (st : list Heading * gmap string Seen)
  : list Heading * gmap string Seen :=
  let '(headings, previouslySeen) := st in
  if String.eqb (typeName node) "heading" then
    let id := headingToSlug slugify (textContent schema) node None in
    let name :=
      match seenAt previouslySeen id with
      | Some (SeenCount k) =>
          if k >? 0 then headingToSlug slugify (textContent schema) node (Some k)
          else id
      | Some SeenOther => id
      | None => id
      end in
    let previouslySeen :=
      <[id := match seenAt previouslySeen id with
              | Some seen => seenPlusOne seen
              | None => SeenCount 1
              end]> previouslySeen in
    (headings ++ [{| heading_title := textContent schema node;
                     heading_level := getProp (nodeAttrs node) "level";
                     heading_id := name |}],
     previouslySeen)
  else st.

Definition getHeadings (doc : Node) : list Heading :=
  fst (forEach headingVisit doc ([], ∅)).
End Helper.

(** ** The slug function *)

(** Modelled from the spec: the slugify collaborator is an external package.
    Section 4.6: the slug is ASCII-normalized, lowercased and stripped of
    punctuation.  Letters are lowercased, digits kept, white space and
    hyphens become the hyphen that joins the words of a slug, and every
    other code unit is dropped. *)
Definition slugChar (c : ascii) : string :=
  let n := Ascii.nat_of_ascii c in
  if ((65 <=? n) && (n <=? 90))%nat then String (Ascii.ascii_of_nat (n + 32)) ""
  else if ((97 <=? n) && (n <=? 122) || (48 <=? n) && (n <=? 57))%nat then String c ""
  else if (JsString.isWhiteSpace c || (n =? 45))%nat then "-"
  else "".

(** Modelled from the spec: the slug of a text, code unit by code unit. *)
Fixpoint slugify (s : string) : string :=
  match s with
  | EmptyString => EmptyString
  | String c s' => slugChar c +:+ slugify s'
  end.

(** * Definitions used in the statements *)

(** ** Leading and trailing runs of a list *)

Section Runs.
Context {A : Type} (p : A → bool).

Fixpoint takeRun (l : list A) : list A :=
  match l with
  | [] => []
  | x :: l' => if p x then x :: takeRun l' else []
  end.

Fixpoint dropRun (l : list A) : list A :=
  match l with
  | [] => []
  | x :: l' => if p x then dropRun l' else l
  end.

(** What is left after removing the leading and the trailing run. *)
Definition strip (l : list A) : list A := rev (dropRun (rev (dropRun l))).
End Runs.

(** The ids given to a run of headings that share the base id [base], when
    [k] of them have been seen before. *)
Fixpoint duplicateIds (base : string) (k : Z) (n : nat) : list string :=
  match n with
  | O => []
  | Datatypes.S n' =>
      (if k =? 0 then base else base +:+ "-" +:+ pretty k)
        :: duplicateIds base (k + 1) n'
  end.

(** The schema gives the node's type neither a plain-text serializer nor a
    leaf text. *)
Definition plainType (schema : Schema) (n : Node) : bool :=
  match schema !! typeName n with
  | None => true
  | Some sp =>
      match spec_toPlainText sp, spec_leafText sp with
      | None, None => true
      | _, _ => false
      end
  end.

(** The two extractions agree on whether the text so far is blank. *)
Definition sameBlank (st1 st2 : string * bool) : Prop :=
  JsString.isBlank (fst st1) = JsString.isBlank (fst st2).

Definition commentMark (attrs : Attrs) : Mark := mkMark "comment" attrs.

(** The entry that [getComments] pushes for a comment mark on a node. *)
Definition commentEntry (schema : Schema) (node : Node) (mark : Mark) : CommentMark :=
  <["text" := JStr (textContent schema node)]> (mark_attrs mark).

(** An entry comes from a comment mark on a node inside the document. *)
Definition comesFrom (schema : Schema) (d : Node) (c : CommentMark) : Prop :=
  ∃ node mark,
    inside node (children d) ∧ mark ∈ nodeMarks node
    ∧ mark_name mark = "comment" ∧ c = commentEntry schema node mark.

(** The "checked" attribute of a checklist item is [true] or is falsy:
    [false], missing, or another value that [filter(t => t.completed)]
    drops. *)
Definition checkedTrueOrFalsy (item : Node) : bool :=
  match getProp (nodeAttrs item) "checked" with
  | JBool true => true
  | v => negb (toBoolean v)
  end.

(** The task that [getTasks] pushes for a child of a checklist. *)
Definition taskOf (schema : Schema) (listItem : Node) : Task :=
  {| task_text := itemText schema listItem;
     task_completed := getProp (nodeAttrs listItem) "checked" |}.

(** A task comes from a child of a checklist inside the document. *)
Definition taskFrom (schema : Schema) (d : Node) (t : Task) : Prop :=
  ∃ list listItem,
    inside list (children d) ∧ typeName list = "checkbox_list"
    ∧ listItem ∈ children list ∧ t = taskOf schema listItem.

(** ** Example documents *)

Definition headingType : NodeType :=
  {| name := "heading"; inline := false; leaf := false; inlineContent := true |}.

Definition paragraph (s : string) : Node :=
  Elem paragraphType ∅ (if String.eqb s "" then [] else [TextNode s []]) [].

Definition heading (s : string) : Node :=
  Elem headingType {[ "level" := JNum 1 ]} [TextNode s []] [].

Definition doc (cs : list Node) : Node := Elem docType ∅ cs [].

(** The empty paragraph, "Hello", the empty paragraph. *)
Definition helloDoc : Node := doc [paragraph ""; paragraph "Hello"; paragraph ""].

(** Three paragraphs without visible text. *)
Definition blankDoc : Node := doc [paragraph ""; paragraph " "; paragraph ""].

(** A text node whose comment mark has a "text" attribute and neither "id"
    nor "userId". *)
Definition overrideDoc : Node :=
  doc [Elem paragraphType ∅
         [TextNode "hey" [commentMark {[ "text" := JStr "mine" ]}]] []].

Definition checkboxListType : NodeType :=
  {| name := "checkbox_list"; inline := false; leaf := false; inlineContent := false |}.

Definition checkboxItemType : NodeType :=
  {| name := "checkbox_item"; inline := false; leaf := false; inlineContent := false |}.

Definition checkboxItem (attrs : Attrs) (s : string) : Node :=
  Elem checkboxItemType attrs [paragraph s] [].

(** A checklist of three items: checked, unchecked, and one whose
    attributes have no "checked" key. *)
Definition tasksDoc : Node :=
  doc [Elem checkboxListType ∅
         [checkboxItem {[ "checked" := JBool true ]} "one";
          checkboxItem {[ "checked" := JBool false ]} "two";
          checkboxItem ∅ "three"] []].

(** A checklist whose items have the "checked" attributes 1 and "0",
    as a document read from JSON may have them: attributes are not
    checked against the schema when a node is built. *)
Definition truthyTasksDoc : Node :=
  doc [Elem checkboxListType ∅
         [checkboxItem {[ "checked" := JNum 1 ]} "one";
          checkboxItem {[ "checked" := JStr "0" ]} "two"] []].

Definition introDoc : Node :=
  doc [heading "Intro"; paragraph "x"; heading "Intro"; heading "Intro"].

Definition collidingDoc : Node :=
  doc [heading "Intro"; heading "Intro"; heading "Intro 1"].

Definition mentionType : NodeType :=
  {| name := "mention"; inline := true; leaf := true; inlineContent := false |}.

(** A schema whose "mention" type has a plain-text serializer. *)
Definition mentionSchema : Schema :=
  {[ "mention" :=
       {| spec_toPlainText :=
            Some (λ node, "@" +:+ match getProp (nodeAttrs node) "label" with
                                  | JStr s => s
                                  | _ => ""
                                  end);
          spec_leafText := None |} ]}.

(** One paragraph that holds one mention and no text. *)
Definition mentionDoc : Node :=
  doc [Elem paragraphType ∅ [Elem mentionType {[ "label" := JStr "ann" ]} [] []] []].

(** A schema whose "mention" type has a leaf text and no serializer. *)
Definition leafTextSchema : Schema :=
  {[ "mention" := {| spec_toPlainText := None; spec_leafText := Some (λ _, "ann") |} ]}.

(** * Definitions used in the further properties *)

(** ** Nodes in document order *)

Section Visited.
(** Whether the traversal goes below a node. *)
Variable descend : Node → bool.

(** The nodes a traversal visits at and below [n], in document order, when
    it goes below exactly the nodes that satisfy [descend]. *)
Fixpoint visitedNode (n : Node) : list Node :=
  n :: (if descend n then
          match n with
          | TextNode _ _ => []
          | Elem _ _ cs _ =>
              (fix go (l : list Node) : list Node :=
                 match l with
                 | [] => []
                 | c :: l' => visitedNode c ++ go l'
                 end) cs
          end
        else []).

Fixpoint visited (l : list Node) : list Node :=
  match l with
  | [] => []
  | c :: l' => visitedNode c ++ visited l'
  end.
End Visited.

(** All nodes of a fragment, in document order. *)
Definition preorder (l : list Node) : list Node := visited (λ _, true) l.

(** The text of the text nodes at and below a node, concatenated in
    document order. *)
Fixpoint deepText (n : Node) : string :=
  match n with
  | TextNode s _ => s
  | Elem _ _ cs _ =>
      (fix go (l : list Node) : string :=
         match l with
         | [] => ""
         | c :: l' => deepText c +:+ go l'
         end) cs
  end.

Fixpoint deepTexts (l : list Node) : string :=
  match l with
  | [] => ""
  | c :: l' => deepText c +:+ deepTexts l'
  end.

(** The schema gives the node's type no leaf text. *)
Definition noLeafText (schema : Schema) (n : Node) : bool :=
  match leafTextOf schema n with
  | None => true
  | Some _ => false
  end.

(** ** What the analyses collect at one node *)

Definition isComment (mark : Mark) : bool := String.eqb (mark_name mark) "comment".

(** The entries of the comment marks of one node, in the marks' order. *)
Definition commentsAt (schema : Schema) (node : Node) : list CommentMark :=
  map (commentEntry schema node) (filter (λ m, isComment m = true) (nodeMarks node)).

(** The tasks of one visited node: those of its children when it is a block
    named "checkbox_list". *)
Definition tasksAt (schema : Schema) (node : Node) : list Task :=
  if isBlock node && String.eqb (typeName node) "checkbox_list"
  then map (taskOf schema) (children node)
  else [].

Definition isHeadingNode (n : Node) : bool := String.eqb (typeName n) "heading".

Definition isParagraphNode (n : Node) : bool := String.eqb (typeName n) "paragraph".

(** The base id of a heading. *)
Definition baseId (schema : Schema) (slug : string → string) (n : Node) : string :=
  headingToSlug slug (textContent schema) n None.

(** How many headings of [earlier] have the base id [base]. *)
Definition occurrences (schema : Schema) (slug : string → string)
    (base : string) (earlier : list Node) : Z :=
  Z.of_nat (length (filter (λ n, isHeadingNode n = true ∧ baseId schema slug n = base) earlier)).

(** The ids that [getHeadings] gives to the headings of [l], when the
    children before them are [earlier]: the base id when no earlier
    heading has it, and also when it is a property name of
    [Object.prototype]; otherwise the base id with the number of earlier
    headings that have it. *)
Fixpoint headingIds (schema : Schema) (slug : string → string)
    (earlier l : list Node) : list string :=
  match l with
  | [] => []
  | n :: l' =>
      if isHeadingNode n then
        (let k := occurrences schema slug (baseId schema slug n) earlier in
         if inheritedKey (baseId schema slug n) || (k =? 0) then baseId schema slug n
         else headingToSlug slug (textContent schema) n (Some k))
          :: headingIds schema slug (earlier ++ [n]) l'
      else headingIds schema slug (earlier ++ [n]) l'
  end.

(** The concatenation of a list of strings. *)
Fixpoint concatStrings (l : list string) : string :=
  match l with
  | [] => ""
  | s :: l' => s +:+ concatStrings l'
  end.

(** What a read of [previouslySeen] gives after the children [earlier]:
    under a property name of [Object.prototype] a value that is not a
    number, and under every other base id the number of headings seen so
    far that have this base id, undefined when there is none. *)
Definition countsOf (schema : Schema) (slug : string → string)
    (earlier : list Node) (seen : gmap string Seen) : Prop :=
  ∀ base,
    seenAt seen base
    = (if inheritedKey base then Some SeenOther
       else if occurrences schema slug base earlier =? 0 then None
       else Some (SeenCount (occurrences schema slug base earlier))).

(** [node.copy(content)] for a new content: the same type, attributes and
    marks around [content]; a text node has no content to replace. *)
Definition copy (n : Node) (content : list Node) : Node :=
  match n with
  | TextNode _ _ => n
  | Elem ty at_ _ ms => Elem ty at_ content ms
  end.

(** * The attachment patterns *)

(** ** Regular expressions

    The part of the regular expression language that the two patterns of
    the source use: literal characters, a character class of ranges, a
    counted repetition, concatenation, and capturing groups with or without
    a name.  There is no alternation and no open repetition, so a match at
    a position is found without backtracking. *)

Inductive Regex : Type :=
| REmpty
| RChar (c : ascii)
| RClass (ranges : list (ascii * ascii))
| RRepeat (r : Regex) (n : nat)
| RCat (r1 r2 : Regex)
| RGroup (name : option string) (r : Regex).

(** A pattern with its flags [g] and [i]. *)
Record RegExp : Type := mkRegExp {
  pattern : Regex;
  global : bool;
  ignoreCase : bool
}.

(** Canonicalize of the [i] flag without the [u] flag, on code units below
    256: the upper-case form, for the letters whose upper-case form is one
    code unit below 256. *)
Definition canonicalize (c : ascii) : ascii :=
  let n := Ascii.nat_of_ascii c in
  if ((97 <=? n) && (n <=? 122)
      || (224 <=? n) && (n <=? 254) && negb (n =? 247))%nat
  then Ascii.ascii_of_nat (n - 32)
  else c.

Definition charMatches (ignoreCase : bool) (c x : ascii) : bool :=
  if ignoreCase then Ascii.eqb (canonicalize c) (canonicalize x)
  else Ascii.eqb c x.

(** The members of a character class. *)
Definition classMembers (ranges : list (ascii * ascii)) : list ascii :=
  flat_map
    (λ '(lo, hi),
       map Ascii.ascii_of_nat
         (seq (Ascii.nat_of_ascii lo)
            (Datatypes.S (Ascii.nat_of_ascii hi) - Ascii.nat_of_ascii lo)))
    ranges.

(** A character is in a class when some member matches it. *)
Definition classMatches (ignoreCase : bool) (ranges : list (ascii * ascii)) (x : ascii)
  : bool :=
  existsb (λ a, charMatches ignoreCase a x) (classMembers ranges).

(** The captures of a match, in the order in which the groups open, each
    with the group's name when it has one. *)
Abbreviation Captures := (list (option string * string)).

(** One character that passes [test]. *)
Definition matchOne (test : ascii → bool) (s : string)
  : option (string * string * Captures) :=
  match s with
  | EmptyString => None
  | String x s' => if test x then Some (String x "", s', []) else None
  end.

(** The match of a pattern at the start of [s]: the text matched, the rest
    of the input, and the captures. *)
Fixpoint matchAt (ignoreCase : bool) (r : Regex) (s : string) {struct r}
  : option (string * string * Captures) :=
  match r with
  | REmpty => Some ("", s, [])
  | RChar c => matchOne (charMatches ignoreCase c) s
  | RClass ranges => matchOne (classMatches ignoreCase ranges) s
  | RRepeat r' n =>
      (fix rep (n : nat) (s : string) : option (string * string * Captures) :=
         match n with
         | O => Some ("", s, [])
         | Datatypes.S n' =>
             '(m1, s1, c1) ← matchAt ignoreCase r' s;
             '(m2, s2, c2) ← rep n' s1;
             Some (m1 +:+ m2, s2, c1 ++ c2)
         end) n s
  | RCat r1 r2 =>
      '(m1, s1, c1) ← matchAt ignoreCase r1 s;
      '(m2, s2, c2) ← matchAt ignoreCase r2 s1;
      Some (m1 +:+ m2, s2, c1 ++ c2)
  | RGroup name r' =>
      '(m, s', c) ← matchAt ignoreCase r' s;
      Some (m, s', (name, m) :: c)
  end.

(** The result of [exec]: where the match starts, its text, its captures. *)
Record Match : Type := mkMatch {
  match_index : Z;
  match_text : string;
  match_captures : Captures
}.

(** [match.groups[name]] *)
Definition namedGroup (name : string) (m : Match) : option string :=
  snd <$> List.find (λ c, bool_decide (fst c = Some name)) (match_captures m).

(** The first position at or after the start of [s] where the pattern
    matches; [index] is the position of the start of [s]. *)
Fixpoint searchFrom (ignoreCase : bool) (r : Regex) (s : string) (index : Z)
  : option Match :=
  match matchAt ignoreCase r s with
  | Some (m, _, caps) =>
      Some {| match_index := index; match_text := m; match_captures := caps |}
  | None =>
      match s with
      | EmptyString => None
      | String _ s' => searchFrom ignoreCase r s' (index + 1)
      end
  end.

(** [regexp.exec(s)] with [lastIndex] 0. *)
Definition exec (re : RegExp) (s : string) : option Match :=
  searchFrom (ignoreCase re) (pattern re) s 0.

(** A literal text: its characters one after the other. *)
Fixpoint literal (l : string) : Regex :=
  match l with
  | EmptyString => REmpty
  | String c l' => RCat (RChar c) (literal l')
  end.

(** [[0-9a-f]] *)
Definition hexClass : Regex := RClass [("0", "9"); ("a", "f")]%char.

(** [[0-9a-f]{8}-[0-9a-f]{4}-[0-9a-f]{4}-[0-9a-f]{4}-[0-9a-f]{12}] *)
Definition uuidPattern : Regex :=
  RCat (RRepeat hexClass 8)
    (RCat (RChar "-")
       (RCat (RRepeat hexClass 4)
          (RCat (RChar "-")
             (RCat (RRepeat hexClass 4)
                (RCat (RChar "-")
                   (RCat (RRepeat hexClass 4)
                      (RCat (RChar "-") (RRepeat hexClass 12)))))))).

Definition attachmentRedirectRegex : RegExp :=
  {| pattern := RCat (literal "/api/attachments.redirect?id=")
                  (RGroup (Some "id") uuidPattern);
     global := true;
     ignoreCase := true |}.

Definition attachmentPublicRegex : RegExp :=
  {| pattern := RCat (literal "public/")
                  (RCat (RGroup None uuidPattern)
                     (RCat (RChar "/") (RGroup (Some "id") uuidPattern)));
     global := true;
     ignoreCase := true |}.

(** ** The shape of an identifier *)

Definition isHexDigit (c : ascii) : bool :=
  let n := Ascii.nat_of_ascii c in
  ((48 <=? n) && (n <=? 57) || (97 <=? n) && (n <=? 102)
   || (65 <=? n) && (n <=? 70))%nat.

(** [n] hexadecimal digits, in either case. *)
Definition hexString (n : nat) (s : string) : bool :=
  (String.length s =? n)%nat && forallb isHexDigit (String.list_ascii_of_string s).

(** Five runs of 8, 4, 4, 4 and 12 hexadecimal digits joined by hyphens. *)
Definition uuidShaped (s : string) : Prop :=
  ∃ a b c d e,
    s = a +:+ "-" +:+ b +:+ "-" +:+ c +:+ "-" +:+ d +:+ "-" +:+ e
    ∧ hexString 8 a = true ∧ hexString 4 b = true ∧ hexString 4 c = true
    ∧ hexString 4 d = true ∧ hexString 12 e = true.

(** The text with every letter in its canonical case. *)
Fixpoint canonicalText (s : string) : string :=
  match s with
  | EmptyString => EmptyString
  | String c s' => String (canonicalize c) (canonicalText s')
  end.

(** The literal texts of the two patterns. *)
Definition redirectText : string := "/api/attachments.redirect?id=".

Definition publicText : string := "public/".

(** ** Further example values *)

(** Two paragraphs with text around an empty one. *)
Definition tightDoc : Node := doc [paragraph "a"; paragraph ""; paragraph "b"].

(** Headings with two different texts. *)
Definition distinctDoc : Node := doc [heading "Alpha"; paragraph "x"; heading "Beta"].

(** A checklist whose second item holds a nested checklist. *)
Definition nestedTasksDoc : Node :=
  doc [Elem checkboxListType ∅
         [checkboxItem {[ "checked" := JBool true ]} "outer";
          Elem checkboxItemType ∅
            [paragraph "parent";
             Elem checkboxListType ∅ [checkboxItem ∅ "inner"] []] []] []].

Definition exampleId : string := "123e4567-e89b-12d3-a456-426614174000".

Definition otherId : string := "0FA1B2C3-0000-4111-8222-abcdefABCDEF".

Definition redirectExample : string :=
  "see /api/attachments.redirect?id=123e4567-e89b-12d3-a456-426614174000 here".

Definition publicExample : string :=
  "https://cdn/Public/123e4567-e89b-12d3-a456-426614174000/0FA1B2C3-0000-4111-8222-abcdefABCDEF/a.png".

(** * Properties *)

(** Settles a comparison on integers whose outcome follows by linear
    arithmetic. *)
Ltac zcmp :=
  symmetry;
  first [ apply Z.ltb_lt | apply Z.ltb_ge
        | rewrite Z.gtb_ltb; first [ apply Z.ltb_lt | apply Z.ltb_ge ]
        | apply Z.leb_le | apply Z.leb_gt
        | apply Z.eqb_eq | apply Z.eqb_neq ];
  lia.

(** ** Sizes and traversal *)

Lemma nodeSize_Elem ty at_ cs ms :
  nodeSize (Elem ty at_ cs ms) = if leaf ty then 1 else 2 + fragmentSize cs.
Proof. reflexivity. Qed.

Section TraversalFacts.
Context {S : Type} (f : Node → Z → S → S * bool).

Lemma nodesBetween_children n from to startPos st :
  nodesBetween f n from to startPos st
  = fragmentNodesBetween f (children n) from to startPos 0 st.
Proof.
  destruct n as [|ty at_ cs ms];
    [cbn [children nodesBetween fragmentNodesBetween]; by destruct (0 <? to)|].
  cbn [children nodesBetween].
  match goal with
  | |- ?loop cs 0 st = _ =>
      enough (H : ∀ pos st0,
                 loop cs pos st0 = fragmentNodesBetween f cs from to startPos pos st0)
        by apply H
  end.
  induction cs as [|c cs IH]; intros pos st0.
  - reflexivity.
  - cbn [fragmentNodesBetween]. destruct (pos <? to); [|reflexivity].
    apply IH.
Qed.

Lemma walkNode_eq n p st :
  walkNode f n p st
  = let '(st1, descend) := f n p st in
    if descend then walk f (children n) (p + 1) st1 else st1.
Proof.
  destruct n as [|ty at_ cs ms]; cbn [walkNode children];
    destruct (f _ p st) as [st1 [|]]; reflexivity.
Qed.
End TraversalFacts.

Lemma nodeSize_nonneg n : 0 ≤ nodeSize n.
Proof.
  induction n as [s ms|ty at_ cs ms IH] using Node_ind; [simpl; lia|].
  rewrite nodeSize_Elem. destruct (leaf ty); [lia|].
  enough (0 ≤ fragmentSize cs) by lia.
  induction IH as [|c cs Hc _ IHcs]; simpl; lia.
Qed.

Lemma fragmentSize_nonneg l : 0 ≤ fragmentSize l.
Proof.
  induction l as [|c l IH]; simpl; [lia|]. pose proof (nodeSize_nonneg c). lia.
Qed.

Lemma fragmentSize_app l1 l2 :
  fragmentSize (l1 ++ l2) = fragmentSize l1 + fragmentSize l2.
Proof. induction l1 as [|c l1 IH]; simpl; lia. Qed.

Lemma wf_Elem ty at_ cs ms :
  wf (Elem ty at_ cs ms) = true →
  (leaf ty = true → cs = []) ∧ Forall (λ c, wf c = true) cs.
Proof.
  cbn [wf]. rewrite !andb_true_iff, orb_true_iff, !negb_true_iff, bool_decide_eq_true.
  intros [[_ Hl] Hcs]. split.
  - intros E. destruct Hl as [Hl|Hl]; [congruence|done].
  - apply Forall_forall. intros c Hc. apply list_elem_of_In in Hc.
    revert c Hc. apply forallb_forall. exact Hcs.
Qed.

Lemma wf_nodeSize_pos n : wf n = true → 0 < nodeSize n.
Proof.
  destruct n as [s ms|ty at_ cs ms]; intros H.
  - destruct s; simpl in *; [discriminate|lia].
  - rewrite nodeSize_Elem. pose proof (fragmentSize_nonneg cs).
    destruct (leaf ty); lia.
Qed.

Lemma wf_contentSize n :
  wf n = true → contentSize n = 0 → children n = [].
Proof.
  destruct n as [s ms|ty at_ cs ms]; [done|]. intros H.
  apply wf_Elem in H as [_ H]. unfold contentSize. cbn [children].
  destruct H as [|c cs Hc Hcs]; [done|]. simpl.
  pose proof (wf_nodeSize_pos c Hc). pose proof (fragmentSize_nonneg cs). lia.
Qed.

Lemma wf_nodeSize_content n :
  wf n = true → contentSize n ≠ 0 → nodeSize n = 2 + contentSize n.
Proof.
  destruct n as [s ms|ty at_ cs ms]; [done|]. intros H Hne.
  apply wf_Elem in H as [Hl _]. rewrite nodeSize_Elem.
  destruct (leaf ty); [|done]. rewrite Hl in Hne by done. done.
Qed.

(** On a well-formed fragment, [nodesBetween] over a range that starts at 0
    and reaches the end of the fragment is the pre-order walk. *)
Section FullRange.
Context {S : Type} (f : Node → Z → S → S * bool).

Let full (c : Node) : Prop :=
  ∀ to startPos st,
    contentSize c ≤ to →
    fragmentNodesBetween f (children c) 0 to startPos 0 st
    = walk f (children c) startPos st.

Lemma fragmentNodesBetween_step l :
  Forall (λ c, wf c = true) l → Forall full l →
  ∀ to startPos pos st,
    0 ≤ pos → pos + fragmentSize l ≤ to →
    fragmentNodesBetween f l 0 to startPos pos st = walk f l (startPos + pos) st.
Proof.
  induction l as [|c l IHl]; intros Hwf Hfull to startPos pos st Hpos Hto;
    [cbn [fragmentNodesBetween walk]; by destruct (pos <? to)|].
  apply Forall_cons in Hwf as [Hc Hl]. apply Forall_cons in Hfull as [Fc Fl].
  cbn [fragmentNodesBetween walk fragmentSize] in *.
  pose proof (wf_nodeSize_pos c Hc) as Hsz.
  pose proof (fragmentSize_nonneg l) as Hl0.
  replace (pos <? to) with true by (symmetry; apply Z.ltb_lt; lia).
  replace (pos + nodeSize c >? 0) with true by (symmetry; apply Z.gtb_lt; lia).
  rewrite IHl by (done || lia). rewrite Z.add_assoc. f_equal.
  rewrite walkNode_eq. destruct (f c (startPos + pos) st) as [st1 descend].
  destruct descend; [|reflexivity]. cbn [andb].
  destruct (contentSize c =? 0) eqn:E; cbn [negb].
  - apply Z.eqb_eq in E. by rewrite (wf_contentSize c Hc E).
  - apply Z.eqb_neq in E. rewrite nodesBetween_children.
    rewrite (wf_nodeSize_content c Hc E) in Hto.
    replace (Z.max 0 (0 - (pos + 1))) with 0 by lia.
    rewrite Fc by lia. f_equal. lia.
Qed.

Lemma wf_full c : wf c = true → full c.
Proof.
  induction c as [s ms|ty at_ cs ms IH] using Node_ind; intros Hwf to startPos st Hto.
  - cbn [children fragmentNodesBetween walk]. by destruct (0 <? to).
  - apply wf_Elem in Hwf as [_ Hcs]. cbn [children] in *.
    unfold contentSize in Hto. cbn [children] in Hto.
    rewrite fragmentNodesBetween_step; [f_equal; lia|done| |lia|lia].
    clear Hto. induction Hcs as [|c cs Hc Hcs IHcs]; [constructor|].
    apply Forall_cons in IH as [IHc IH]. constructor; [by apply IHc|by apply IHcs].
Qed.

Lemma descendants_walk n st :
  wf n = true → descendants f n st = walk f (children n) 0 st.
Proof.
  intros Hwf. unfold descendants. rewrite nodesBetween_children.
  by apply wf_full.
Qed.
End FullRange.

Lemma cut_Elem ty at_ cs ms from to :
  cut (Elem ty at_ cs ms) from to
  = if (from =? 0) && (to =? fragmentSize cs) then Some (Elem ty at_ cs ms)
    else
      cs' ← (if to >? from then fragmentCutLoop from to cs 0 else Some []);
      Some (Elem ty at_ cs' ms).
Proof.
  cbn [cut]. destruct ((from =? 0) && (to =? fragmentSize cs)); [reflexivity|].
  destruct (to >? from); [|reflexivity]. f_equal.
  match goal with
  | |- ?loop cs 0 = _ =>
      enough (H : ∀ pos, loop cs pos = fragmentCutLoop from to cs pos) by apply H
  end.
  induction cs as [|c cs IH]; intros pos.
  - reflexivity.
  - cbn [fragmentCutLoop]. destruct (pos <? to); [|reflexivity].
    destruct (pos + nodeSize c >? from); [|apply IH].
    rewrite IH. reflexivity.
Qed.

(** ** Strings *)

Lemma string_app_cons (c : ascii) (a b : string) :
  String c a +:+ b = String c (a +:+ b).
Proof. reflexivity. Qed.

Lemma string_length_app (a b : string) :
  String.length (a +:+ b) = (String.length a + String.length b)%nat.
Proof.
  induction a as [|c a IH]; [done|]. rewrite string_app_cons. simpl. by rewrite IH.
Qed.

Lemma string_app_nil_r (a : string) : a +:+ "" = a.
Proof. induction a as [|c a IH]; [done|]. by rewrite string_app_cons, IH. Qed.

Lemma string_app_assoc (a b c : string) : a +:+ (b +:+ c) = (a +:+ b) +:+ c.
Proof. induction a as [|x a IH]; [done|]. by rewrite !string_app_cons, IH. Qed.

(** ** Blank strings *)

Lemma allWhiteSpace_cons c s :
  JsString.allWhiteSpace (String c s)
  = JsString.isWhiteSpace c && JsString.allWhiteSpace s.
Proof. reflexivity. Qed.

Lemma allWhiteSpace_app a b :
  JsString.allWhiteSpace (a +:+ b)
  = JsString.allWhiteSpace a && JsString.allWhiteSpace b.
Proof.
  induction a as [|c a IH]; [done|].
  by rewrite string_app_cons, !allWhiteSpace_cons, IH, andb_assoc.
Qed.

Lemma trimStart_allWhiteSpace s :
  JsString.allWhiteSpace (JsString.trimStart s) = JsString.allWhiteSpace s.
Proof.
  induction s as [|c s IH]; [done|]. cbn [JsString.trimStart].
  destruct (JsString.isWhiteSpace c) eqn:E; [|done].
  by rewrite allWhiteSpace_cons, E.
Qed.

Lemma trimEnd_empty s :
  JsString.trimEnd s = "" ↔ JsString.allWhiteSpace s = true.
Proof.
  induction s as [|c s IH]; [done|].
  cbn [JsString.trimEnd]. rewrite allWhiteSpace_cons.
  destruct (JsString.trimEnd s) as [|x r] eqn:E.
  - destruct (JsString.isWhiteSpace c); simpl; [|done].
    split; [intros _; by apply IH|done].
  - split; [done|]. intros [_ H]%andb_true_iff. by apply IH in H.
Qed.

(** [s.trim() === ""] holds exactly when every code unit of [s] is white
    space. *)
Lemma isBlank_allWhiteSpace s : JsString.isBlank s = JsString.allWhiteSpace s.
Proof.
  unfold JsString.isBlank, JsString.trim.
  rewrite <- trimStart_allWhiteSpace.
  destruct (JsString.trimEnd (JsString.trimStart s)) as [|x r] eqn:E.
  - symmetry. by apply trimEnd_empty.
  - destruct (JsString.allWhiteSpace (JsString.trimStart s)) eqn:E'; [|done].
    apply trimEnd_empty in E'. congruence.
Qed.

Lemma isBlank_app a b :
  JsString.isBlank (a +:+ b) = JsString.isBlank a && JsString.isBlank b.
Proof. rewrite !isBlank_allWhiteSpace. apply allWhiteSpace_app. Qed.

Lemma substring_full s : String.substring 0 (String.length s) s = s.
Proof. induction s as [|c s IH]; simpl; [done|]. by rewrite IH. Qed.

(** A slice that starts at 0 and ends at or after the end is the string. *)
Lemma slice_full s to :
  Z.of_nat (String.length s) ≤ to → JsString.slice s 0 to = s.
Proof.
  intros H. unfold JsString.slice. cbn [Z.ltb Z.compare].
  replace (to <? 0) with false by zcmp.
  replace (Z.min 0 (Z.of_nat (String.length s))) with 0 by lia.
  replace (Z.min to (Z.of_nat (String.length s))) with (Z.of_nat (String.length s)) by lia.
  rewrite Z.sub_0_r, Nat2Z.id. apply substring_full.
Qed.

(** ** Leading and trailing runs of a list *)

Section RunFacts.
Context {A : Type} (p : A → bool).

Lemma takeRun_dropRun l : takeRun p l ++ dropRun p l = l.
Proof. induction l as [|x l IH]; simpl; [done|]. destruct (p x); simpl; congruence. Qed.

Lemma dropRun_head l x m : dropRun p l = x :: m → p x = false.
Proof.
  induction l as [|y l IH]; simpl; [done|].
  destruct (p y) eqn:E; [done|]. congruence.
Qed.

Lemma dropRun_keep x m : p x = false → dropRun p (x :: m) = x :: m.
Proof. simpl. by intros ->. Qed.

Lemma dropRun_all l : dropRun p l = [] → takeRun p l = l.
Proof. intros H. rewrite <- (takeRun_dropRun l) at 2. rewrite H. by rewrite app_nil_r. Qed.

Lemma dropRun_all_forall l : dropRun p l = [] ↔ Forall (λ x, p x = true) l.
Proof.
  induction l as [|x l IH]; simpl; [by split; [constructor|]|].
  destruct (p x) eqn:E.
  - rewrite IH. split; [by constructor|]. by intros [_ ?]%Forall_cons.
  - split; [done|]. intros [? _]%Forall_cons. congruence.
Qed.

Lemma takeRun_app_stop l x m : p x = false → takeRun p (l ++ x :: m) = takeRun p l.
Proof.
  intros Hx. induction l as [|y l IH]; simpl; [by rewrite Hx|].
  destruct (p y); congruence.
Qed.

Lemma dropRun_app_stop l x m :
  p x = false → dropRun p (l ++ x :: m) = dropRun p (l ++ [x]) ++ m.
Proof.
  intros Hx. induction l as [|y l IH]; simpl; [by rewrite Hx|].
  destruct (p y); [done|]. simpl. by rewrite <- app_assoc.
Qed.

Lemma dropRun_snoc l x : p x = false → ∃ m, dropRun p (l ++ [x]) = m ++ [x].
Proof.
  intros Hx. induction l as [|y l [m IH]]; simpl.
  - rewrite Hx. by exists [].
  - destruct (p y); [by exists m|]. by exists (y :: l).
Qed.

Lemma strip_nil l : dropRun p l = [] → strip p l = [].
Proof. unfold strip. by intros ->. Qed.

(** The list splits into its leading run, the stripped part and its
    trailing run; the stripped part is not empty unless the whole list is
    one run. *)
Lemma strip_split l x m :
  dropRun p l = x :: m →
  l = takeRun p l ++ strip p l ++ rev (takeRun p (rev l)) ∧ strip p l ≠ [].
Proof.
  intros Hd. pose proof (dropRun_head _ _ _ Hd) as Hx.
  assert (Hrl : rev l = rev m ++ x :: rev (takeRun p l)).
  { rewrite <- (takeRun_dropRun l) at 1. rewrite Hd, rev_app_distr. simpl.
    by rewrite <- app_assoc. }
  assert (Ht : takeRun p (rev l) = takeRun p (rev (x :: m))).
  { rewrite Hrl. simpl. rewrite takeRun_app_stop by done.
    symmetry. rewrite <- (app_nil_r (rev m ++ [x])), <- app_assoc. simpl.
    by apply takeRun_app_stop. }
  unfold strip. rewrite Hd, Ht.
  destruct (dropRun_snoc (rev m) x Hx) as [k Hk]. simpl in *.
  split.
  - rewrite <- rev_app_distr, takeRun_dropRun. simpl.
    rewrite rev_app_distr, rev_involutive. simpl.
    rewrite <- Hd. symmetry. apply takeRun_dropRun.
  - rewrite Hk, rev_app_distr. done.
Qed.

Lemma strip_head l : dropRun p (strip p l) = strip p l.
Proof.
  destruct (dropRun p l) as [|x m] eqn:Hd; [by rewrite strip_nil|].
  pose proof (dropRun_head _ _ _ Hd) as Hx.
  unfold strip. rewrite Hd. simpl.
  destruct (dropRun_snoc (rev m) x Hx) as [k Hk]. rewrite Hk, rev_app_distr.
  simpl. by rewrite Hx.
Qed.

Lemma dropRun_idem l : dropRun p (dropRun p l) = dropRun p l.
Proof.
  destruct (dropRun p l) as [|x m] eqn:Hd; [done|].
  apply dropRun_keep. by eapply dropRun_head.
Qed.

Lemma strip_idem l : strip p (strip p l) = strip p l.
Proof.
  unfold strip at 1. rewrite strip_head. unfold strip.
  by rewrite rev_involutive, dropRun_idem.
Qed.
End RunFacts.

Lemma Forall_dropRun {A} (p : A → bool) (P : A → Prop) l :
  Forall P l → Forall P (dropRun p l).
Proof.
  induction 1 as [|x l Hx Hl IH]; simpl; [constructor|].
  destruct (p x); [done|by constructor].
Qed.

Lemma Forall_strip {A} (p : A → bool) (P : A → Prop) l :
  Forall P l → Forall P (strip p l).
Proof.
  intros H. unfold strip. by apply Forall_rev, Forall_dropRun, Forall_rev, Forall_dropRun.
Qed.

(** ** [trim] *)

Lemma fragmentSize_rev l : fragmentSize (rev l) = fragmentSize l.
Proof.
  induction l as [|c l IH]; [done|]. simpl.
  rewrite fragmentSize_app, IH. simpl. lia.
Qed.

Lemma fragmentSize_zero l :
  Forall (λ c, 0 < nodeSize c) l → fragmentSize l = 0 → l = [].
Proof.
  intros [|c l' Hc _]; [done|]. simpl.
  pose proof (fragmentSize_nonneg l'). lia.
Qed.

(** Children that end at or before [from] are passed over. *)
Lemma fragmentCutLoop_skip from to l1 rest pos :
  from < to → pos + fragmentSize l1 ≤ from →
  fragmentCutLoop from to (l1 ++ rest) pos
  = fragmentCutLoop from to rest (pos + fragmentSize l1).
Proof.
  intros Hft. revert pos. induction l1 as [|c l1 IH]; intros pos Hpos; simpl in *.
  - f_equal. lia.
  - pose proof (nodeSize_nonneg c). pose proof (fragmentSize_nonneg l1).
    replace (pos <? to) with true by zcmp.
    replace (pos + nodeSize c >? from) with false
      by zcmp.
    rewrite IH by lia. f_equal. lia.
Qed.

(** Children that lie inside the range are kept whole, and the loop stops
    at [to]. *)
Lemma fragmentCutLoop_take from to l2 rest pos :
  Forall (λ c, 0 < nodeSize c) l2 →
  from ≤ pos → pos + fragmentSize l2 = to →
  fragmentCutLoop from to (l2 ++ rest) pos = Some l2.
Proof.
  intros Hsz. revert pos.
  induction Hsz as [|c l2 Hc Hl2 IH]; intros pos Hfrom Hto; simpl in *.
  - destruct rest; simpl; by replace (pos <? to) with false by zcmp.
  - pose proof (fragmentSize_nonneg l2).
    replace (pos <? to) with true by zcmp.
    replace (pos + nodeSize c >? from) with true
      by zcmp.
    replace (pos <? from) with false by zcmp.
    replace (pos + nodeSize c >? to) with false
      by zcmp.
    simpl. by rewrite IH by lia.
Qed.

Section TrimProperties.
Variable schema : Schema.

Local Abbreviation empty := (emptyText schema).

Lemma scanStart_takeRun l start :
  scanStart schema l start = start + fragmentSize (takeRun empty l).
Proof.
  revert start. induction l as [|c l IH]; intros start; simpl; [lia|].
  destruct (empty c); simpl; [rewrite IH|]; lia.
Qed.

Lemma scanEnd_takeRun l end_ :
  scanEnd schema l end_ = end_ - fragmentSize (takeRun empty l).
Proof.
  revert end_. induction l as [|c l IH]; intros end_; simpl; [lia|].
  destruct (empty c); simpl; [rewrite IH|]; lia.
Qed.

Lemma trimStart_Elem ty at_ cs ms :
  trimStart schema (Elem ty at_ cs ms) = fragmentSize (takeRun empty cs).
Proof. unfold trimStart. cbn [children]. rewrite scanStart_takeRun. lia. Qed.

Lemma trimEnd_Elem ty at_ cs ms :
  leaf ty = false →
  trimEnd schema (Elem ty at_ cs ms)
  = fragmentSize cs - fragmentSize (takeRun empty (rev cs)).
Proof.
  intros Hl. unfold trimEnd. cbn [children].
  rewrite scanEnd_takeRun, nodeSize_Elem, Hl. lia.
Qed.

(** With two or more children of positive size, [trim] keeps exactly the
    children between the leading and the trailing run of empty ones. *)
Lemma trim_strip ty at_ cs ms :
  leaf ty = false → Forall (λ c, 0 < nodeSize c) cs → (2 ≤ length cs)%nat →
  trim schema (Elem ty at_ cs ms) = Some (Elem ty at_ (strip empty cs) ms).
Proof.
  intros Hl Hsz Hlen. unfold trim, childCount. cbn [children].
  replace (Z.of_nat (length cs) <=? 1) with false by zcmp.
  rewrite trimStart_Elem, trimEnd_Elem, cut_Elem by done.
  destruct (dropRun empty cs) as [|x m] eqn:Hd.
  - (* every child is empty *)
    rewrite (dropRun_all _ _ Hd). rewrite strip_nil by done.
    assert (Hr : takeRun empty (rev cs) = rev cs).
    { apply dropRun_all, dropRun_all_forall, Forall_rev.
      by apply dropRun_all_forall. }
    rewrite Hr, fragmentSize_rev, Z.sub_diag.
    assert (0 < fragmentSize cs).
    { destruct Hsz as [|c cs' Hc _]; [simpl in Hlen; lia|]. simpl.
      pose proof (fragmentSize_nonneg cs'). lia. }
    replace (fragmentSize cs =? 0) with false by zcmp.
    replace (0 >? fragmentSize cs) with false
      by zcmp.
    reflexivity.
  - destruct (strip_split empty cs x m Hd) as [Hsplit Hne].
    set (l1 := takeRun empty cs) in *. set (l2 := strip empty cs) in *.
    set (l3 := rev (takeRun empty (rev cs))) in *.
    assert (Hs3 : fragmentSize (takeRun empty (rev cs)) = fragmentSize l3)
      by (unfold l3; by rewrite fragmentSize_rev).
    rewrite Hs3.
    assert (Hsz' : Forall (λ c, 0 < nodeSize c) l1
                   ∧ Forall (λ c, 0 < nodeSize c) l2
                   ∧ Forall (λ c, 0 < nodeSize c) l3).
    { rewrite Hsplit in Hsz. by rewrite !Forall_app in Hsz. }
    destruct Hsz' as (Hz1 & Hz2 & Hz3).
    assert (Htot : fragmentSize cs = fragmentSize l1 + fragmentSize l2 + fragmentSize l3).
    { rewrite Hsplit at 1. rewrite !fragmentSize_app. lia. }
    assert (0 < fragmentSize l2).
    { destruct Hz2 as [|c l2' Hc _]; [done|]. simpl.
      pose proof (fragmentSize_nonneg l2'). lia. }
    pose proof (fragmentSize_nonneg l1). pose proof (fragmentSize_nonneg l3).
    destruct ((fragmentSize l1 =? 0)
              && (fragmentSize cs - fragmentSize l3 =? fragmentSize cs)) eqn:E.
    + apply andb_true_iff in E as [E1%Z.eqb_eq E3%Z.eqb_eq].
      assert (l1 = []) as Hn1 by (by apply fragmentSize_zero).
      assert (l3 = []) as Hn3 by (apply fragmentSize_zero; [done|lia]).
      rewrite Hn1, Hn3, app_nil_r in Hsplit. simpl in Hsplit. by rewrite <- Hsplit.
    + replace (fragmentSize cs - fragmentSize l3 >? fragmentSize l1) with true
        by zcmp.
      rewrite Htot.
      replace (fragmentSize l1 + fragmentSize l2 + fragmentSize l3 - fragmentSize l3)
        with (fragmentSize l1 + fragmentSize l2) by lia.
      clearbody l1 l2 l3. subst cs.
      rewrite fragmentCutLoop_skip by lia.
      rewrite fragmentCutLoop_take; [done|done|lia|lia].
Qed.
End TrimProperties.

Lemma wf_children_pos n :
  wf n = true → Forall (λ c, 0 < nodeSize c) (children n).
Proof.
  destruct n as [s ms|ty at_ cs ms]; [constructor|]. intros [_ H]%wf_Elem.
  cbn [children]. eapply Forall_impl; [exact H|]. apply wf_nodeSize_pos.
Qed.

Section TrimClaims.
Variable schema : Schema.

(** The guard of [trim]. *)
Lemma trim_guard (d : Node) :
  (childCount d <=? 1) = true → trim schema d = Some d.
Proof. intros H. unfold trim. by rewrite H. Qed.

(** C7. A document with at most one top-level child is returned by [trim]
    as it is: no exception and no slicing. *)
Theorem trim_at_most_one_child (d : Node) :
  childCount d ≤ 1 → trim schema d = Some d.
Proof. intros H. apply trim_guard. by apply Z.leb_le. Qed.

(** C3. [trim] is idempotent: on a well-formed document it returns a
    document, and trimming that document returns it again. *)
Theorem trim_idempotent (d : Node) :
  wf d = true →
  ∃ d', trim schema d = Some d' ∧ trim schema d' = Some d'.
Proof.
  intros Hwf.
  destruct (Z.le_gt_cases (childCount d) 1) as [Hle|Hgt].
  { exists d. split; by apply trim_guard, Z.leb_le. }
  destruct d as [s ms|ty at_ cs ms]; [done|].
  unfold childCount in Hgt. cbn [children] in Hgt.
  pose proof (wf_children_pos _ Hwf) as Hsz. cbn [children] in Hsz.
  apply wf_Elem in Hwf as [Hleaf _].
  assert (Hl : leaf ty = false).
  { destruct (leaf ty); [|done]. rewrite Hleaf in Hgt by done. simpl in Hgt. lia. }
  exists (Elem ty at_ (strip (emptyText schema) cs) ms). split.
  - apply trim_strip; [done|done|lia].
  - set (cs' := strip (emptyText schema) cs).
    destruct (Z.le_gt_cases (childCount (Elem ty at_ cs' ms)) 1) as [Hle|Hgt'].
    + by apply trim_guard, Z.leb_le.
    + unfold childCount in Hgt'. cbn [children] in Hgt'.
      rewrite trim_strip; [|done|by apply Forall_strip|lia].
      unfold cs'. by rewrite strip_idem.
Qed.

(** C8. When a well-formed document has two or more top-level children
    and the plain text of each is blank, both scans run over all of them:
    the start offset is the sum of the children's sizes, the end offset is
    0, and the result is [doc.cut(start, 0)] with [start > 0], a document
    without children. *)
Theorem trim_all_empty (d : Node) :
  wf d = true → 2 ≤ childCount d →
  Forall (λ c, emptyText schema c = true) (children d) →
  trimStart schema d = fragmentSize (children d)
  ∧ trimEnd schema d = 0
  ∧ trimEnd schema d < trimStart schema d
  ∧ trim schema d = cut d (trimStart schema d) 0
  ∧ ∃ ty at_ cs ms, d = Elem ty at_ cs ms ∧ trim schema d = Some (Elem ty at_ [] ms).
Proof.
  intros Hwf Hn Hall.
  destruct d as [s ms|ty at_ cs ms]; [unfold childCount in Hn; simpl in Hn; lia|].
  unfold childCount in Hn. cbn [children] in *.
  pose proof (wf_children_pos _ Hwf) as Hsz. cbn [children] in Hsz.
  apply wf_Elem in Hwf as [Hleaf _].
  assert (Hl : leaf ty = false).
  { destruct (leaf ty); [|done]. rewrite Hleaf in Hn by done. simpl in Hn. lia. }
  assert (Hd : dropRun (emptyText schema) cs = []) by (by apply dropRun_all_forall).
  assert (Hr : takeRun (emptyText schema) (rev cs) = rev cs).
  { by apply dropRun_all, dropRun_all_forall, Forall_rev. }
  assert (Hstart : trimStart schema (Elem ty at_ cs ms) = fragmentSize cs).
  { by rewrite trimStart_Elem, (dropRun_all _ _ Hd). }
  assert (Hend : trimEnd schema (Elem ty at_ cs ms) = 0).
  { rewrite trimEnd_Elem, Hr, fragmentSize_rev by done. lia. }
  assert (Hpos : 0 < fragmentSize cs).
  { destruct Hsz as [|c cs' Hc _]; [simpl in Hn; lia|]. simpl.
    pose proof (fragmentSize_nonneg cs'). lia. }
  assert (Htrim : trim schema (Elem ty at_ cs ms) = Some (Elem ty at_ [] ms)).
  { rewrite trim_strip; [|done|done|lia]. by rewrite strip_nil. }
  repeat split.
  - exact Hstart.
  - exact Hend.
  - lia.
  - rewrite Htrim, Hstart, cut_Elem.
    replace (fragmentSize cs =? 0) with false by zcmp.
    by replace (0 >? fragmentSize cs) with false by zcmp.
  - by exists ty, at_, cs, ms.
Qed.
End TrimClaims.

(** The empty paragraphs around "Hello" are removed. *)
Example trim_helloDoc :
  trim ∅ helloDoc = Some (doc [paragraph "Hello"])
  ∧ isEmpty ∅ (trim ∅ helloDoc) = false.
Proof. by vm_compute. Qed.

Lemma trim_at_most_one_child_witness :
  childCount getEmptyDocument ≤ 1 ∧ trim ∅ getEmptyDocument = Some getEmptyDocument.
Proof.
  split; [vm_compute; discriminate|].
  apply (trim_at_most_one_child ∅ getEmptyDocument). vm_compute. discriminate.
Defined.

Lemma trim_idempotent_witness :
  wf helloDoc = true
  ∧ ∃ d', trim ∅ helloDoc = Some d' ∧ trim ∅ d' = Some d'.
Proof.
  split; [reflexivity|]. apply (trim_idempotent ∅ helloDoc). reflexivity.
Defined.

Lemma trim_all_empty_witness :
  trimStart ∅ blankDoc = 7 ∧ trimEnd ∅ blankDoc = 0
  ∧ trim ∅ blankDoc = Some (doc []).
Proof.
  destruct (trim_all_empty ∅ blankDoc) as (Hs & He & _ & _ & _).
  - reflexivity.
  - vm_compute. discriminate.
  - repeat constructor.
  - split; [rewrite Hs; reflexivity|]. split; [exact He|reflexivity].
Defined.

(** ** What a traversal can reach *)

Section TraversalInvariant.
Context {S : Type} (f : Node → Z → S → S * bool).
Variable Q : Node → Prop.
Variable I : S → Prop.
Hypothesis f_keeps : ∀ node pos st, Q node → I st → I (fst (f node pos st)).

Let kept (c : Node) : Prop :=
  ∀ from to startPos st,
    (∀ n, inside n (children c) → Q n) → I st →
    I (nodesBetween f c from to startPos st).

Lemma fragmentNodesBetween_keeps l :
  Forall kept l → (∀ n, inside n l → Q n) →
  ∀ from to startPos pos st,
    I st → I (fragmentNodesBetween f l from to startPos pos st).
Proof.
  induction l as [|c l IH]; intros Hk HQ from to startPos pos st Hst;
    [cbn [fragmentNodesBetween]; by destruct (pos <? to)|].
  apply Forall_cons in Hk as [Hc Hl]. cbn [fragmentNodesBetween].
  destruct (pos <? to); [|done].
  apply IH; [done| |].
  { intros n Hn. apply HQ. destruct Hn as [l Hn|c' l Hc' Hn].
    - apply inside_here. by right.
    - eapply inside_below; [|exact Hn]. by right. }
  destruct (pos + nodeSize c >? from); [|done].
  pose proof (f_keeps c (startPos + pos) st) as Hf.
  destruct (f c (startPos + pos) st) as [st1 descend]. simpl in Hf.
  assert (I st1) as Hst1 by (apply Hf; [apply HQ, inside_here; by left|done]).
  destruct (descend && negb (contentSize c =? 0)); [|done].
  apply Hc; [|done].
  intros n Hn. apply HQ. eapply inside_below; [|exact Hn]. by left.
Qed.

Lemma nodesBetween_kept c : kept c.
Proof.
  induction c as [s ms|ty at_ cs ms IH] using Node_ind;
    intros from to startPos st HQ Hst; [done|].
  rewrite nodesBetween_children. by apply fragmentNodesBetween_keeps.
Qed.

(** An invariant that the callback keeps at every node inside the document
    holds of the result of [descendants]. *)
Lemma descendants_keeps d st :
  (∀ n, inside n (children d) → Q n) → I st → I (descendants f d st).
Proof. intros HQ Hst. by apply nodesBetween_kept. Qed.
End TraversalInvariant.

Lemma fold_left_keeps {A B} (f : A → B → A) (I : A → Prop) (Q : B → Prop) l a :
  (∀ a b, Q b → I a → I (f a b)) → Forall Q l → I a → I (fold_left f l a).
Proof.
  intros Hf Hl. revert a. induction Hl as [|b l Hb Hl IH]; intros a Ha; simpl; [done|].
  apply IH. by apply Hf.
Qed.

(** ** Comments *)

Section CommentClaims.
Variable schema : Schema.

Lemma getComments_comesFrom d :
  Forall (comesFrom schema d) (getComments schema d).
Proof.
  unfold getComments.
  apply (descendants_keeps (commentVisit schema)
           (λ n, inside n (children d)) (Forall (comesFrom schema d)));
    [|done|constructor].
  intros node pos comments Hnode Hcs. cbn [commentVisit fst].
  apply (fold_left_keeps _ _ (λ mark, mark ∈ nodeMarks node));
    [|by apply Forall_forall|done].
  intros cs mark Hmark Hinv.
  destruct (String.eqb (mark_name mark) "comment") eqn:E; [|done].
  apply Forall_app. split; [done|]. constructor; [|constructor].
  exists node, mark. by apply String.eqb_eq in E.
Qed.

(** C9. Every entry of [getComments] comes from a comment mark on a node
    of the document; its [text] is that node's text content, also when
    the mark has a "text" attribute of its own, and every other key, [id]
    and [userId] among them, is present exactly when the mark has it,
    with the mark's value. *)
Theorem getComments_text_from_node (d : Node) (c : CommentMark) :
  c ∈ getComments schema d →
  ∃ node mark,
    inside node (children d) ∧ mark ∈ nodeMarks node
    ∧ mark_name mark = "comment"
    ∧ c !! "text" = Some (JStr (textContent schema node))
    ∧ c !! "id" = mark_attrs mark !! "id"
    ∧ c !! "userId" = mark_attrs mark !! "userId"
    ∧ ∀ key, key ≠ "text" → c !! key = mark_attrs mark !! key.
Proof.
  intros Hc. pose proof (getComments_comesFrom d) as H.
  rewrite Forall_forall in H. destruct (H c Hc) as (node & mark & Hn & Hm & Hname & ->).
  exists node, mark. unfold commentEntry.
  repeat split; try done.
  - apply lookup_insert_eq.
  - by rewrite lookup_insert_ne.
  - by rewrite lookup_insert_ne.
  - intros key Hkey. by rewrite lookup_insert_ne.
Qed.
End CommentClaims.

(** The mark's own "text" does not reach the entry, and the entry has no
    "id" and no "userId". *)
Example getComments_overrideDoc :
  getComments ∅ overrideDoc = [ {[ "text" := JStr "hey" ]} ].
Proof. by vm_compute. Qed.

Lemma getComments_text_from_node_witness :
  ({[ "text" := JStr "hey" ]} : CommentMark) ∈ getComments ∅ overrideDoc
  ∧ ∃ node mark,
      inside node (children overrideDoc) ∧ mark ∈ nodeMarks node
      ∧ mark_name mark = "comment"
      ∧ ({[ "text" := JStr "hey" ]} : CommentMark) !! "text"
        = Some (JStr (textContent ∅ node))
      ∧ ({[ "text" := JStr "hey" ]} : CommentMark) !! "id" = mark_attrs mark !! "id"
      ∧ ({[ "text" := JStr "hey" ]} : CommentMark) !! "userId"
        = mark_attrs mark !! "userId"
      ∧ ∀ key, key ≠ "text" →
          ({[ "text" := JStr "hey" ]} : CommentMark) !! key = mark_attrs mark !! key.
Proof.
  split; [vm_compute; left|].
  apply (getComments_text_from_node ∅ overrideDoc). vm_compute. left.
Defined.

Lemma commentEntry_text schema node mark :
  commentEntry schema node mark !! "text" = Some (JStr (textContent schema node)).
Proof. apply lookup_insert_eq. Qed.

Lemma commentEntry_id schema node v rest :
  commentEntry schema node (commentMark (<["id" := v]> rest)) !! "id" = Some v.
Proof.
  unfold commentEntry. cbn [mark_attrs commentMark].
  rewrite lookup_insert_ne by done. apply lookup_insert_eq.
Qed.

(** C6. A document with one text node that carries two comment marks has
    exactly two comments, one per mark and in the marks' order, whatever
    the marks' ids are (with ids "a" and "b": one entry for "a", one for
    "b"); both have the node's text as [text]. *)
Theorem getComments_two_marks (schema : Schema) (c : ascii) (s : string)
    (id1 id2 : JSValue) (rest1 rest2 : Attrs) :
  let t := String c s in
  let m1 := commentMark (<["id" := id1]> rest1) in
  let m2 := commentMark (<["id" := id2]> rest2) in
  let d := doc [Elem paragraphType ∅ [TextNode t [m1; m2]] []] in
  length (getComments schema d) = 2%nat
  ∧ map (λ e : CommentMark, e !! "id") (getComments schema d) = [Some id1; Some id2]
  ∧ map (λ e : CommentMark, e !! "text") (getComments schema d)
    = [Some (JStr t); Some (JStr t)].
Proof.
  intros t m1 m2 d.
  assert (H : getComments schema d
              = [commentEntry schema (TextNode t [m1; m2]) m1;
                 commentEntry schema (TextNode t [m1; m2]) m2]).
  { unfold getComments. rewrite descendants_walk by reflexivity. reflexivity. }
  rewrite H. cbn [map length]. unfold m1, m2.
  by rewrite !commentEntry_id, !commentEntry_text.
Qed.

(** The instance of the claim: ids "a" and "b" on the text "hey". *)
Example getComments_a_b :
  getComments ∅
    (doc [Elem paragraphType ∅
            [TextNode "hey" [commentMark {[ "id" := JStr "a" ]};
                             commentMark {[ "id" := JStr "b" ]}]] []])
  = [ {[ "id" := JStr "a"; "text" := JStr "hey" ]};
      {[ "id" := JStr "b"; "text" := JStr "hey" ]} ].
Proof. by vm_compute. Qed.

(** ** Tasks *)

Section TaskClaims.
Variable schema : Schema.

Lemma getTasks_taskFrom d : Forall (taskFrom schema d) (getTasks schema d).
Proof.
  unfold getTasks.
  apply (descendants_keeps (taskVisit schema)
           (λ n, inside n (children d)) (Forall (taskFrom schema d)));
    [|done|constructor].
  intros node pos tasks Hnode Hts. unfold taskVisit.
  destruct (negb (isBlock node)); [done|]. cbn [fst].
  destruct (String.eqb (typeName node) "checkbox_list") eqn:E; [|done].
  apply String.eqb_eq in E. unfold forEach.
  apply (fold_left_keeps _ _ (λ item, item ∈ children node));
    [|by apply Forall_forall|done].
  intros ts item Hitem Hinv. apply Forall_app. split; [done|].
  constructor; [|constructor]. by exists node, item.
Qed.

(** C10. Every task of [getTasks] comes from a child of a checklist inside
    the document, and its [completed] is that child's "checked" attribute
    as it is: the attribute's value when the key is there, and [undefined]
    (not [false]) when it is not. *)
Theorem getTasks_completed_verbatim (d : Node) (t : Task) :
  t ∈ getTasks schema d →
  ∃ list listItem,
    inside list (children d) ∧ typeName list = "checkbox_list"
    ∧ listItem ∈ children list
    ∧ task_text t = itemText schema listItem
    ∧ (∀ v, nodeAttrs listItem !! "checked" = Some v → task_completed t = v)
    ∧ (nodeAttrs listItem !! "checked" = None → task_completed t = JUndefined).
Proof.
  intros Ht. pose proof (getTasks_taskFrom d) as H. rewrite Forall_forall in H.
  destruct (H t Ht) as (list & item & Hl & Hname & Hitem & ->).
  exists list, item. unfold taskOf, getProp. cbn [task_text task_completed].
  do 4 (split; [done|]). split.
  - intros v Hv. by rewrite Hv.
  - intros Hv. by rewrite Hv.
Qed.

(** The number of tasks that pass [filter(t => t.completed)] is the number
    of tasks whose [completed] is [true] when no [completed] is a truthy
    value other than [true]. *)
Lemma truthy_count (ts : list Task) :
  Forall (λ t, toBoolean (task_completed t) = true → task_completed t = JBool true) ts →
  length (filter (λ t, toBoolean (task_completed t) = true) ts)
  = length (filter (λ t, task_completed t = JBool true) ts).
Proof.
  induction 1 as [|t ts Ht Hts IH]; [done|].
  rewrite !filter_cons.
  destruct (decide (toBoolean (task_completed t) = true)) as [E|E].
  - rewrite decide_True by auto. cbn [length]. by rewrite IH.
  - rewrite decide_False; [done|]. intros E'. by rewrite E' in E.
Qed.

(** The summary counts the tasks, and among them those that pass
    [filter(t => t.completed)]: those whose [completed] is truthy. *)
Lemma getTasksSummary_truthy (d : Node) :
  getTasksSummary schema d
  = {| completed := Z.of_nat (length (filter (λ t, toBoolean (task_completed t) = true)
                                        (getTasks schema d)));
       total := Z.of_nat (length (getTasks schema d)) |}.
Proof. reflexivity. Qed.

(** C5, amended. In a document where no child of a checklist has a
    "checked" attribute that is a truthy value other than [true] (as when
    each is a boolean or is missing), the summary's [total] is the number
    of tasks of [getTasks] and its [completed] is the number of those whose
    [completed] is [true]. *)
Theorem getTasksSummary_consistent (d : Node) :
  (∀ list item,
     inside list (children d) → typeName list = "checkbox_list" →
     item ∈ children list → checkedTrueOrFalsy item = true) →
  total (getTasksSummary schema d) = Z.of_nat (length (getTasks schema d))
  ∧ completed (getTasksSummary schema d)
    = Z.of_nat (length (filter (λ t, task_completed t = JBool true)
                          (getTasks schema d))).
Proof.
  intros Hd. split; [done|].
  rewrite getTasksSummary_truthy. cbn [completed]. f_equal.
  apply truthy_count.
  eapply Forall_impl; [apply getTasks_taskFrom|].
  intros t (list & item & Hl & Hname & Hitem & ->).
  specialize (Hd list item Hl Hname Hitem).
  unfold taskOf. cbn [task_completed]. unfold checkedTrueOrFalsy in Hd.
  intros Ht. destruct (getProp (nodeAttrs item) "checked") as [| |[|]| |];
    try done; by rewrite Ht in Hd.
Qed.
End TaskClaims.

Example getTasks_tasksDoc :
  getTasks ∅ tasksDoc
  = [mkTask "one" (JBool true); mkTask "two" (JBool false); mkTask "three" JUndefined]
  ∧ getTasksSummary ∅ tasksDoc = {| completed := 1; total := 3 |}.
Proof. by vm_compute. Qed.

Lemma getTasks_completed_verbatim_witness :
  mkTask "three" JUndefined ∈ getTasks ∅ tasksDoc
  ∧ ∃ list listItem,
      inside list (children tasksDoc) ∧ typeName list = "checkbox_list"
      ∧ listItem ∈ children list
      ∧ task_text (mkTask "three" JUndefined) = itemText ∅ listItem
      ∧ (∀ v, nodeAttrs listItem !! "checked" = Some v →
              task_completed (mkTask "three" JUndefined) = v)
      ∧ (nodeAttrs listItem !! "checked" = None →
         task_completed (mkTask "three" JUndefined) = JUndefined).
Proof.
  assert (H : mkTask "three" JUndefined ∈ getTasks ∅ tasksDoc)
    by (vm_compute; right; right; left).
  split; [exact H|]. exact (getTasks_completed_verbatim ∅ tasksDoc _ H).
Defined.

(** C5 as it is stated fails on [truthyTasksDoc], a checklist whose items
    have the "checked" attributes 1 and "0": both pass
    [filter(t => t.completed)], so [completed] is 2, and the [completed]
    field of neither task is [true]. *)
Lemma getTasksSummary_truthy_differ :
  getTasks ∅ truthyTasksDoc = [mkTask "one" (JNum 1); mkTask "two" (JStr "0")]
  ∧ getTasksSummary ∅ truthyTasksDoc = {| completed := 2; total := 2 |}
  ∧ completed (getTasksSummary ∅ truthyTasksDoc)
    ≠ Z.of_nat (length (filter (λ t, task_completed t = JBool true)
                          (getTasks ∅ truthyTasksDoc))).
Proof. split; [|split]; by vm_compute. Qed.

(** ** Headings *)

Section HeadingProperties.
Variable schema : Schema.
Variable slug : string → string.

Local Abbreviation isHeading := (λ n : Node, typeName n = "heading").
Local Abbreviation visit := (λ st c, headingVisit schema slug c st).

Lemma headingVisit_other node st :
  typeName node ≠ "heading" → headingVisit schema slug node st = st.
Proof.
  intros H. unfold headingVisit. destruct st as [hs seen].
  by replace (String.eqb (typeName node) "heading") with false
    by (symmetry; by apply String.eqb_neq).
Qed.

Lemma seenAt_own (seen : gmap string Seen) id :
  inheritedKey id = false → seenAt seen id = seen !! id.
Proof. intros H. unfold seenAt. rewrite H. by destruct (seen !! id). Qed.

(** No property name of [Object.prototype] ends with "-1". *)
Lemma inheritedKey_suffix base : inheritedKey (base +:+ "-1") = false.
Proof.
  destruct (inheritedKey (base +:+ "-1")) eqn:E; [|done]. exfalso.
  apply existsb_exists in E as (k & Hk & E). apply String.eqb_eq in E.
  assert (Hlen : String.length k = (String.length base + 2)%nat).
  { rewrite <- E, string_length_app. simpl. lia. }
  assert (Hget : String.get (String.length k - 1) k = Some "1"%char).
  { rewrite Hlen. rewrite <- E.
    replace (String.length base + 2 - 1)%nat with (1 + String.length base)%nat by lia.
    by rewrite <- append_correct2. }
  unfold objectPrototypeKeys in Hk. cbn [In] in Hk.
  repeat (destruct Hk as [<-|Hk]; [by vm_compute in Hget|]). done.
Qed.

Lemma headingVisit_heading node hs seen :
  typeName node = "heading" →
  headingVisit schema slug node (hs, seen)
  = let id := slug (textContent schema node) in
    (hs ++ [{| heading_title := textContent schema node;
               heading_level := getProp (nodeAttrs node) "level";
               heading_id := match seenAt seen id with
                             | Some (SeenCount k) =>
                                 if k >? 0 then id +:+ "-" +:+ pretty k else id
                             | Some SeenOther => id
                             | None => id
                             end |}],
     <[id := match seenAt seen id with
             | Some v => seenPlusOne v
             | None => SeenCount 1
             end]> seen).
Proof. intros E. unfold headingVisit, headingToSlug. by rewrite E. Qed.

(** Headings that share one base id, not a name inherited from
    [Object.prototype], get the base id first and then the base id with
    the count of earlier occurrences; the count is kept under the base
    id. *)
Lemma headings_same_base base l :
  inheritedKey base = false →
  Forall (λ n, isHeading n → slug (textContent schema n) = base) l →
  ∀ hs seen k,
    0 ≤ k → seen !! base = (if k =? 0 then None else Some (SeenCount k)) →
    map heading_id (fst (fold_left visit l (hs, seen)))
    = map heading_id hs ++ duplicateIds base k (length (filter isHeading l)).
Proof.
  intros Hb.
  induction 1 as [|n l Hn Hl IH]; intros hs seen k Hk Hseen; cbn [fold_left].
  { by rewrite filter_nil, app_nil_r. }
  destruct (decide (typeName n = "heading")) as [E|E].
  - rewrite filter_cons_True by done. specialize (Hn E).
    rewrite headingVisit_heading by done. cbn zeta.
    rewrite Hn, (seenAt_own _ _ Hb), Hseen.
    rewrite (IH _ _ (k + 1)); [| lia |].
    + rewrite map_app, <- app_assoc. cbn [map heading_id length duplicateIds app].
      do 2 f_equal.
      destruct (k =? 0) eqn:Ek; [done|].
      by replace (k >? 0) with true by zcmp.
    + rewrite lookup_insert_eq.
      replace (k + 1 =? 0) with false by zcmp.
      destruct (k =? 0) eqn:Ek; [|done]. apply Z.eqb_eq in Ek. by subst.
  - rewrite filter_cons_False by done. rewrite headingVisit_other by done.
    by apply IH.
Qed.

Lemma getHeadings_same_base base d :
  inheritedKey base = false →
  Forall (λ n, isHeading n → slug (textContent schema n) = base) (children d) →
  map heading_id (getHeadings schema slug d)
  = duplicateIds base 0 (length (filter isHeading (children d))).
Proof.
  intros Hb H. unfold getHeadings, forEach.
  by rewrite (headings_same_base base _ Hb H [] ∅ 0).
Qed.

(** Two headings with one base id followed by a heading whose own base id
    is the second one's disambiguated id: the last two ids are equal. *)
Lemma getHeadings_collision at1 at2 at3 cs1 cs2 cs3 ms1 ms2 ms3 base :
  let h1 := Elem headingType at1 cs1 ms1 in
  let h2 := Elem headingType at2 cs2 ms2 in
  let h3 := Elem headingType at3 cs3 ms3 in
  inheritedKey base = false →
  slug (textContent schema h1) = base →
  slug (textContent schema h2) = base →
  slug (textContent schema h3) = base +:+ "-1" →
  map heading_id (getHeadings schema slug (doc [h1; h2; h3]))
  = [base; base +:+ "-1"; base +:+ "-1"].
Proof.
  intros h1 h2 h3 Hb E1 E2 E3. unfold getHeadings, forEach, doc.
  cbn [children fold_left].
  rewrite !headingVisit_heading by done. cbn zeta.
  rewrite E1, E2, E3.
  rewrite !(seenAt_own _ base Hb), !(seenAt_own _ _ (inheritedKey_suffix base)).
  rewrite lookup_empty, lookup_insert_eq.
  assert (Eb : base ≠ base +:+ "-1").
  { intros Eb. apply (f_equal String.length) in Eb.
    rewrite string_length_app in Eb. simpl in Eb. lia. }
  rewrite !lookup_insert_ne, lookup_empty by done.
  reflexivity.
Qed.
End HeadingProperties.

(** C4. When the headings among the direct children of a document are
    three, each with the text "Intro", their ids are "intro", "intro-1",
    "intro-2": the first keeps the base slug, the second and the third are
    computed again with the count of earlier occurrences, 1 and 2, which is
    kept under the base id. *)
Theorem getHeadings_intro (schema : Schema) (d h1 h2 h3 : Node) :
  filter (λ n, typeName n = "heading") (children d) = [h1; h2; h3] →
  textContent schema h1 = "Intro" →
  textContent schema h2 = "Intro" →
  textContent schema h3 = "Intro" →
  map heading_id (getHeadings schema slugify d) = ["intro"; "intro-1"; "intro-2"]
  ∧ map heading_id (getHeadings schema slugify d)
    = [headingToSlug slugify (textContent schema) h1 None;
       headingToSlug slugify (textContent schema) h2 (Some 1);
       headingToSlug slugify (textContent schema) h3 (Some 2)].
Proof.
  intros Hf E1 E2 E3.
  assert (H : map heading_id (getHeadings schema slugify d)
              = ["intro"; "intro-1"; "intro-2"]).
  { rewrite (getHeadings_same_base schema slugify "intro").
    - by rewrite Hf.
    - reflexivity.
    - apply Forall_forall. intros n Hn Hh.
      assert (Hin : n ∈ [h1; h2; h3]).
      { rewrite <- Hf. by apply list_elem_of_filter. }
      rewrite !elem_of_cons, elem_of_nil in Hin.
      destruct Hin as [->|[->|[->|[]]]]; by rewrite ?E1, ?E2, ?E3. }
  split; [exact H|]. rewrite H. unfold headingToSlug. by rewrite E1, E2, E3.
Qed.

Lemma getHeadings_intro_witness :
  map heading_id (getHeadings ∅ slugify introDoc) = ["intro"; "intro-1"; "intro-2"].
Proof.
  apply (getHeadings_intro ∅ introDoc (heading "Intro") (heading "Intro") (heading "Intro"));
    reflexivity.
Defined.

(** C1 fails on [collidingDoc], headings "Intro", "Intro", "Intro 1": the
    second heading is disambiguated to the id that is the third heading's
    base slug, which has not been seen, so the third keeps it. *)
Theorem getHeadings_ids_collide :
  map heading_id (getHeadings ∅ slugify collidingDoc) = ["intro"; "intro-1"; "intro-1"]
  ∧ ¬ NoDup (map heading_id (getHeadings ∅ slugify collidingDoc)).
Proof.
  assert (H : map heading_id (getHeadings ∅ slugify collidingDoc)
              = ["intro"; "intro-1"; "intro-1"]) by (by vm_compute).
  split; [exact H|]. rewrite H.
  intros [_ [Hn _]%NoDup_cons]%NoDup_cons. apply Hn. left.
Qed.

(** ** Emptiness *)

Lemma separate_blank guard t first :
  JsString.isBlank (fst (separate guard blockSeparator (t, first)))
  = JsString.isBlank t.
Proof.
  unfold separate. destruct guard, first; cbn [fst]; try done.
  rewrite isBlank_app. replace (JsString.isBlank blockSeparator) with true by done.
  apply andb_true_r.
Qed.

Section BlankText.
Variable schema : Schema.
(** The end of the range of the tree's text extraction. *)
Variable to : Z.

Local Abbreviation own := (textBetweenVisit schema 0 to "").
Local Abbreviation plain := (plainTextVisit (omap spec_toPlainText schema)).

Lemma plainType_lookups n :
  plainType schema n = true →
  leafTextOf schema n = None
  ∧ omap spec_toPlainText schema !! typeName n = None.
Proof.
  unfold plainType, leafTextOf. rewrite lookup_omap.
  destruct (schema !! typeName n) as [sp|]; [|done]. simpl.
  by destruct (spec_toPlainText sp), (spec_leafText sp).
Qed.

Lemma visit_sameBlank n p st1 st2 :
  wf n = true → plainType schema n = true →
  0 ≤ p → p + nodeSize n ≤ to → sameBlank st1 st2 →
  sameBlank (fst (own n p st1)) (fst (plain n p st2))
  ∧ snd (own n p st1) = true ∧ snd (plain n p st2) = true.
Proof.
  intros Hwf Hplain Hp Hto HR.
  destruct (plainType_lookups n Hplain) as [Hleaf Hser].
  destruct st1 as [t1 f1], st2 as [t2 f2]. unfold sameBlank in *. cbn [fst] in HR.
  unfold textBetweenVisit, plainTextVisit. rewrite Hser, Hleaf.
  assert (Hown : ∀ g, separate (g && nonEmpty "") "" (t1, f1) = (t1, f1))
    by (intros g; unfold separate; by rewrite andb_false_r).
  rewrite Hown.
  match goal with
  | |- context [separate ?g blockSeparator (t2, f2)] =>
      pose proof (separate_blank g t2 f2) as Hsep;
      destruct (separate g blockSeparator (t2, f2)) as [t2' f2']
  end.
  cbn [fst snd] in *. split; [|done].
  rewrite !isBlank_app, Hsep, HR. f_equal.
  destruct n as [s ms|ty at_ cs ms].
  - replace (Z.max 0 p - p) with 0 by lia.
    rewrite slice_full; [done|]. simpl in Hto. lia.
  - by destruct (negb (isLeaf (Elem ty at_ cs ms))).
Qed.

Let agrees (c : Node) : Prop :=
  wf c = true → plainType schema c = true →
  (∀ n, inside n (children c) → plainType schema n = true) →
  ∀ p st1 st2,
    0 ≤ p → p + nodeSize c ≤ to → sameBlank st1 st2 →
    sameBlank (walkNode own c p st1) (walkNode plain c p st2).

Lemma walk_sameBlank l :
  Forall agrees l → Forall (λ c, wf c = true) l →
  (∀ n, inside n l → plainType schema n = true) →
  ∀ p st1 st2,
    0 ≤ p → p + fragmentSize l ≤ to → sameBlank st1 st2 →
    sameBlank (walk own l p st1) (walk plain l p st2).
Proof.
  induction l as [|c l IH]; intros Hag Hwf Hpl p st1 st2 Hp Hto HR; [done|].
  apply Forall_cons in Hag as [Hc Hag]. apply Forall_cons in Hwf as [Hwc Hwf].
  cbn [walk fragmentSize] in *.
  pose proof (nodeSize_nonneg c). pose proof (fragmentSize_nonneg l).
  apply IH; [done|done| |lia|lia|].
  - intros n Hn. apply Hpl. destruct Hn as [l Hn|c' l Hc' Hn].
    + apply inside_here. by right.
    + eapply inside_below; [|exact Hn]. by right.
  - apply Hc; [done| | |done|lia|done].
    + apply Hpl, inside_here. by left.
    + intros n Hn. apply Hpl. eapply inside_below; [|exact Hn]. by left.
Qed.

Lemma walkNode_sameBlank c : agrees c.
Proof.
  induction c as [s ms|ty at_ cs ms IH] using Node_ind;
    intros Hwf Hplain Hin p st1 st2 Hp Hto HR; rewrite !walkNode_eq;
    destruct (visit_sameBlank _ p st1 st2 Hwf Hplain Hp Hto HR) as (HR' & Hd1 & Hd2).
  - destruct (own _ p st1) as [st1' d1], (plain _ p st2) as [st2' d2].
    cbn [fst snd] in *. subst. done.
  - destruct (own _ p st1) as [st1' d1], (plain _ p st2) as [st2' d2].
    cbn [fst snd children] in *. subst.
    pose proof (wf_Elem _ _ _ _ Hwf) as [Hleaf Hcs].
    rewrite nodeSize_Elem in Hto.
    destruct (leaf ty).
    + rewrite Hleaf by done. done.
    + apply walk_sameBlank; [done|done|done|lia|lia|done].
Qed.
End BlankText.

Lemma isEmpty_getEmptyDocument (schema : Schema) :
  isEmpty schema (Some getEmptyDocument) = true.
Proof. reflexivity. Qed.

(** C2 as stated fails: a paragraph that holds only a mention has no text
    content, so [isEmpty] is true, while the serializer of "mention" gives
    [toPlainText] the text "@ann". *)
Lemma isEmpty_toPlainText_differ :
  isEmpty mentionSchema (Some mentionDoc)
  ≠ JsString.isBlank (toPlainText mentionDoc mentionSchema).
Proof. by vm_compute. Qed.

(** A leaf text has the converse effect: the tree's own extraction reads it
    and the serializer-aware one does not. *)
Example isEmpty_leafText_differ :
  isEmpty leafTextSchema (Some mentionDoc) = false
  ∧ JsString.isBlank (toPlainText mentionDoc leafTextSchema) = true.
Proof. by vm_compute. Qed.

(** C2, amended.  For a well-formed document that is not a leaf, when the
    schema gives no type of a node inside it a plain-text serializer or a
    leaf text, [isEmpty] holds exactly when the trimmed [toPlainText] is the
    empty string; and [isEmpty] holds of the empty document under every
    schema. *)
Theorem isEmpty_toPlainText (schema : Schema) (d : Node) :
  wf d = true → isLeaf d = false →
  (∀ n, inside n (children d) → plainType schema n = true) →
  isEmpty schema (Some d) = JsString.isBlank (toPlainText d schema)
  ∧ isEmpty schema (Some getEmptyDocument) = true.
Proof.
  intros Hwf Hleaf Hplain. split; [|apply isEmpty_getEmptyDocument].
  destruct d as [s ms|ty at_ cs ms]; [done|]. cbn [isLeaf] in Hleaf.
  pose proof (wf_Elem _ _ _ _ Hwf) as [_ Hcs].
  unfold isEmpty, toPlainText, textBetween.
  change (nodesBetween ?f ?n 0 (contentSize ?n) 0 ?st) with (descendants f n st).
  rewrite descendants_walk by done.
  cbn [textContent isLeaf children]. rewrite Hleaf.
  unfold fragmentTextBetween.
  rewrite fragmentNodesBetween_step; [|done| |lia|lia].
  - apply walk_sameBlank; [|done|done|lia|lia|done].
    apply Forall_forall. intros c _. apply walkNode_sameBlank.
  - apply Forall_forall. intros c Hc to startPos st Hto.
    apply wf_full; [|done]. rewrite Forall_forall in Hcs. by apply Hcs.
Qed.

Lemma plainType_empty n : plainType ∅ n = true.
Proof. unfold plainType. by rewrite lookup_empty. Qed.

Lemma isEmpty_toPlainText_witness :
  isEmpty ∅ (Some helloDoc) = JsString.isBlank (toPlainText helloDoc ∅)
  ∧ isEmpty ∅ (Some blankDoc) = JsString.isBlank (toPlainText blankDoc ∅).
Proof.
  split.
  - apply (isEmpty_toPlainText ∅ helloDoc); [reflexivity|reflexivity|].
    intros n _. apply plainType_empty.
  - apply (isEmpty_toPlainText ∅ blankDoc); [reflexivity|reflexivity|].
    intros n _. apply plainType_empty.
Defined.

(** * Further properties *)

(** ** Traversals as lists of visited nodes *)

Lemma visitedNode_eq descend n :
  visitedNode descend n
  = n :: (if descend n then visited descend (children n) else []).
Proof.
  destruct n as [s ms|ty at_ cs ms]; cbn [visitedNode children visited];
    destruct (descend _); reflexivity.
Qed.

Lemma visited_app descend l1 l2 :
  visited descend (l1 ++ l2) = visited descend l1 ++ visited descend l2.
Proof.
  induction l1 as [|c l1 IH]; [reflexivity|]. cbn [visited app].
  by rewrite IH, app_assoc.
Qed.

Section Collect.
Context {A : Type}.
(** What is collected at a node, and whether the traversal goes below it. *)
Variable collect : Node → list A.
Variable descend : Node → bool.
Variable f : Node → Z → list A → list A * bool.
Hypothesis f_collects : ∀ n p acc, f n p acc = (acc ++ collect n, descend n).

Let collected (n : Node) : Prop :=
  ∀ p acc, walkNode f n p acc = acc ++ flat_map collect (visitedNode descend n).

Lemma walk_collected l :
  Forall collected l →
  ∀ p acc, walk f l p acc = acc ++ flat_map collect (visited descend l).
Proof.
  induction 1 as [|c l Hc Hl IH]; intros p acc; cbn [walk visited flat_map].
  - by rewrite app_nil_r.
  - by rewrite IH, Hc, flat_map_app, app_assoc.
Qed.

Lemma walkNode_collected n : collected n.
Proof.
  induction n as [s ms|ty at_ cs ms IH] using Node_ind; intros p acc;
    rewrite walkNode_eq, f_collects, visitedNode_eq; cbn [flat_map];
    destruct (descend _); cbn [children visited flat_map walk];
    rewrite ?app_nil_r; try reflexivity.
  by rewrite walk_collected, app_assoc.
Qed.

(** A traversal whose callback appends what it collects visits, on a
    well-formed document, the nodes of [visited] in order. *)
Lemma descendants_collected d :
  wf d = true →
  descendants f d [] = flat_map collect (visited descend (children d)).
Proof.
  intros Hwf. rewrite descendants_walk by done.
  rewrite walk_collected; [done|].
  apply Forall_forall. intros c _. apply walkNode_collected.
Qed.
End Collect.

Lemma inside_visited l n : inside n l ↔ n ∈ preorder l.
Proof.
  unfold preorder. split.
  - induction 1 as [l Hn|c l Hc Hn IH].
    + induction l as [|c l IHl]; [by apply elem_of_nil in Hn|].
      cbn [visited]. rewrite elem_of_app, visitedNode_eq.
      apply elem_of_cons in Hn as [->|Hn]; [left; left|right; by apply IHl].
    + induction l as [|c' l IHl]; [by apply elem_of_nil in Hc|].
      cbn [visited]. rewrite elem_of_app, visitedNode_eq.
      apply elem_of_cons in Hc as [->|Hc]; [left; by right|right; by apply IHl].
  - revert n. induction l as [|c l IHl]; intros n Hn; [by apply elem_of_nil in Hn|].
    cbn [visited] in Hn. apply elem_of_app in Hn as [Hn|Hn].
    + clear IHl. revert n l Hn.
      induction c as [s ms|ty at_ cs ms IH] using Node_ind; intros n l Hn;
        rewrite visitedNode_eq in Hn; cbn [children visited] in Hn;
        apply elem_of_cons in Hn as [->|Hn];
        try (apply inside_here; by left); [by apply elem_of_nil in Hn|].
      apply inside_below with (Elem ty at_ cs ms); [by left|]. cbn [children].
      clear -IH Hn. induction IH as [|c cs Hc _ IHcs]; [by apply elem_of_nil in Hn|].
      cbn [visited] in Hn. apply elem_of_app in Hn as [Hn|Hn].
      * by apply Hc.
      * specialize (IHcs Hn). destruct IHcs as [l' H'|c' l' Hc' H'].
        -- apply inside_here. by right.
        -- eapply inside_below; [|exact H']. by right.
    + destruct (IHl n Hn) as [l' H'|c' l' Hc' H'].
      * apply inside_here. by right.
      * eapply inside_below; [|exact H']. by right.
Qed.

Lemma filter_none {A} (P : A → Prop) `{!∀ x, Decision (P x)} (l : list A) :
  (∀ x, x ∈ l → ¬ P x) → filter P l = [].
Proof.
  induction l as [|x l IH]; intros Hno; [done|].
  rewrite filter_cons_False by (apply Hno; left). apply IH.
  intros y Hy. apply Hno. by right.
Qed.

(** ** Comments, in document order *)

Section CommentOrder.
Variable schema : Schema.

Lemma commentVisit_collects node pos comments :
  commentVisit schema node pos comments
  = (comments ++ commentsAt schema node, true).
Proof.
  unfold commentVisit, commentsAt. f_equal.
  generalize (nodeMarks node). intros marks. revert comments.
  induction marks as [|m marks IH]; intros comments; cbn [fold_left].
  - by rewrite filter_nil, app_nil_r.
  - rewrite IH. unfold isComment at 2.
    destruct (String.eqb (mark_name m) "comment") eqn:E.
    + rewrite filter_cons_True by done. cbn [map]. by rewrite <- app_assoc.
    + rewrite filter_cons_False by (unfold isComment; congruence). done.
Qed.

(** X1. On a well-formed document [getComments] is the list, in document
    order, of the entries of the comment marks of every node inside the
    document: each node's entries in the order of its marks. *)
Theorem getComments_document_order (d : Node) :
  wf d = true →
  getComments schema d = flat_map (commentsAt schema) (preorder (children d)).
Proof.
  intros Hwf. unfold getComments, preorder.
  by apply descendants_collected; [apply commentVisit_collects|].
Qed.

(** X2. On a well-formed document the entries of [getComments] are exactly
    the entries of the comment marks on nodes inside the document: none is
    missed and nothing else is reported. *)
Theorem getComments_complete (d : Node) (c : CommentMark) :
  wf d = true →
  c ∈ getComments schema d ↔ comesFrom schema d c.
Proof.
  intros Hwf. split.
  - intros Hc. pose proof (getComments_comesFrom schema d) as H.
    rewrite Forall_forall in H. by apply H.
  - intros (node & mark & Hin & Hm & Hname & ->).
    unfold getComments.
    rewrite (descendants_collected (commentsAt schema) (λ _, true))
      by (done || apply commentVisit_collects).
    apply list_elem_of_In, in_flat_map. exists node. split.
    + apply list_elem_of_In. by apply inside_visited.
    + unfold commentsAt. apply in_map, list_elem_of_In, list_elem_of_filter.
      split; [|done]. unfold isComment. by apply String.eqb_eq.
Qed.

(** X3. When no node inside the document carries a mark named "comment",
    [getComments] returns the empty list. *)
Theorem getComments_none (d : Node) :
  (∀ n m, inside n (children d) → m ∈ nodeMarks n → mark_name m ≠ "comment") →
  getComments schema d = [].
Proof.
  intros Hno. unfold getComments.
  apply (descendants_keeps (commentVisit schema)
           (λ n, inside n (children d)) (λ cs, cs = [])); [|done|done].
  intros node pos comments Hnode ->. rewrite commentVisit_collects. cbn [fst app].
  unfold commentsAt. rewrite filter_none; [done|].
  intros m Hm E. apply (Hno node m Hnode Hm). by apply String.eqb_eq.
Qed.
End CommentOrder.

Lemma string_app_nil_l (a : string) : "" +:+ a = a.
Proof. reflexivity. Qed.

(** ** Tasks, in document order *)

Section TaskOrder.
Variable schema : Schema.

Lemma forEach_push {A} (g : Node → A) n acc :
  forEach (λ c acc, acc ++ [g c]) n acc = acc ++ map g (children n).
Proof.
  unfold forEach. generalize (children n). intros l. revert acc.
  induction l as [|c l IH]; intros acc; cbn [fold_left map].
  - by rewrite app_nil_r.
  - by rewrite IH, <- app_assoc.
Qed.

Lemma taskVisit_collects node pos tasks :
  taskVisit schema node pos tasks = (tasks ++ tasksAt schema node, isBlock node).
Proof.
  unfold taskVisit, tasksAt. destruct (isBlock node); cbn [negb andb].
  - destruct (String.eqb (typeName node) "checkbox_list"); [|by rewrite app_nil_r].
    f_equal. apply (forEach_push (taskOf schema)).
  - by rewrite app_nil_r.
Qed.

(** X4. On a well-formed document [getTasks] is the list, in document
    order, of the tasks of the children of every block named
    "checkbox_list" that the traversal visits; the traversal visits the
    children of the document and goes below block nodes only, so a checklist
    under an inline node gives no task and a checklist nested in an item
    gives its tasks after those of the outer list. *)
Theorem getTasks_document_order (d : Node) :
  wf d = true →
  getTasks schema d = flat_map (tasksAt schema) (visited isBlock (children d)).
Proof.
  intros Hwf. unfold getTasks.
  by apply descendants_collected; [apply taskVisit_collects|].
Qed.

(** X5. The summary counts are consistent: [completed] is never negative
    and never more than [total]. *)
Theorem getTasksSummary_bounds (d : Node) :
  0 ≤ completed (getTasksSummary schema d)
  ∧ completed (getTasksSummary schema d) ≤ total (getTasksSummary schema d).
Proof.
  unfold getTasksSummary. cbn [completed total]. split; [lia|].
  apply inj_le, length_filter.
Qed.

(** X6. When no node inside the document is named "checkbox_list",
    [getTasks] returns the empty list and the summary is 0 of 0. *)
Theorem getTasks_none (d : Node) :
  (∀ n, inside n (children d) → typeName n ≠ "checkbox_list") →
  getTasks schema d = []
  ∧ getTasksSummary schema d = {| completed := 0; total := 0 |}.
Proof.
  intros Hno.
  assert (H : getTasks schema d = []).
  { unfold getTasks.
    apply (descendants_keeps (taskVisit schema)
             (λ n, inside n (children d)) (λ ts, ts = [])); [|done|done].
    intros node pos tasks Hnode ->. rewrite taskVisit_collects. cbn [fst app].
    unfold tasksAt.
    replace (String.eqb (typeName node) "checkbox_list") with false
      by (symmetry; apply String.eqb_neq; by apply Hno).
    by rewrite andb_false_r. }
  split; [exact H|]. unfold getTasksSummary. by rewrite H.
Qed.

Lemma itemText_fold (l : list Node) (text : string) :
  fold_left
    (λ text contentNode,
       if String.eqb (typeName contentNode) "paragraph" then
         text +:+ textContent schema contentNode
       else text) l text
  = text +:+ concatStrings (map (textContent schema)
                              (filter (λ c, isParagraphNode c = true) l)).
Proof.
  revert text. induction l as [|c l IH]; intros text; cbn [fold_left].
  - by rewrite filter_nil, string_app_nil_r.
  - rewrite IH. unfold isParagraphNode at 2.
    destruct (String.eqb (typeName c) "paragraph") eqn:E.
    + rewrite filter_cons_True by done. cbn [map concatStrings].
      by rewrite string_app_assoc.
    + rewrite filter_cons_False by (unfold isParagraphNode; congruence). done.
Qed.

(** X7. The text of a task is the text content of the item's direct
    children named "paragraph", concatenated in order; the item's other
    children, nested lists among them, add nothing. *)
Theorem itemText_paragraphs (listItem : Node) :
  itemText schema listItem
  = concatStrings (map (textContent schema)
                     (filter (λ c, isParagraphNode c = true) (children listItem))).
Proof. unfold itemText, forEach. by rewrite itemText_fold. Qed.
End TaskOrder.

(** ** Headings *)

Section HeadingOrder.
Variable schema : Schema.
Variable slug : string → string.

Local Abbreviation step := (λ st c, headingVisit schema slug c st).

Lemma headingVisit_not_heading node st :
  isHeadingNode node = false → headingVisit schema slug node st = st.
Proof.
  intros H. apply headingVisit_other. intros E.
  unfold isHeadingNode in H. rewrite E in H. discriminate.
Qed.

Lemma headings_fields l :
  ∀ hs seen,
    map (λ h, (heading_title h, heading_level h)) (fst (fold_left step l (hs, seen)))
    = map (λ h, (heading_title h, heading_level h)) hs
      ++ map (λ n, (textContent schema n, getProp (nodeAttrs n) "level"))
           (filter (λ n, isHeadingNode n = true) l).
Proof.
  induction l as [|n l IH]; intros hs seen; cbn [fold_left].
  - by rewrite filter_nil, app_nil_r.
  - destruct (isHeadingNode n) eqn:E.
    + rewrite filter_cons_True by done.
      rewrite headingVisit_heading by (by apply String.eqb_eq).
      cbn zeta. rewrite IH, map_app, <- app_assoc. reflexivity.
    + rewrite filter_cons_False by congruence.
      rewrite headingVisit_not_heading by done. apply IH.
Qed.

(** X8. [getHeadings] returns one heading per direct child named
    "heading", in order, with the child's text content as title and its
    "level" attribute as level; headings nested deeper are not reported. *)
Theorem getHeadings_fields (d : Node) :
  map (λ h, (heading_title h, heading_level h)) (getHeadings schema slug d)
  = map (λ n, (textContent schema n, getProp (nodeAttrs n) "level"))
      (filter (λ n, isHeadingNode n = true) (children d)).
Proof. unfold getHeadings, forEach. by rewrite headings_fields. Qed.

Lemma occurrences_nonneg base earlier : 0 ≤ occurrences schema slug base earlier.
Proof. unfold occurrences. lia. Qed.

Lemma occurrences_snoc base earlier n :
  occurrences schema slug base (earlier ++ [n])
  = occurrences schema slug base earlier
    + (if isHeadingNode n && String.eqb (baseId schema slug n) base then 1 else 0).
Proof.
  unfold occurrences. rewrite filter_app, length_app, Nat2Z.inj_add. f_equal.
  destruct (isHeadingNode n) eqn:E1; cbn [andb].
  - destruct (String.eqb (baseId schema slug n) base) eqn:E2.
    + apply String.eqb_eq in E2. by rewrite filter_cons_True.
    + apply String.eqb_neq in E2. rewrite filter_cons_False; [done|]. by intros [_ ?].
  - rewrite filter_cons_False; [done|]. intros [? _]. congruence.
Qed.

Lemma seenAt_empty base :
  seenAt ∅ base = (if inheritedKey base then Some SeenOther else None).
Proof. unfold seenAt. by rewrite lookup_empty. Qed.

Lemma seenAt_insert_eq (seen : gmap string Seen) id v :
  seenAt (<[id := v]> seen) id = Some v.
Proof. unfold seenAt. by rewrite lookup_insert_eq. Qed.

Lemma seenAt_insert_ne (seen : gmap string Seen) id id' v :
  id ≠ id' → seenAt (<[id := v]> seen) id' = seenAt seen id'.
Proof. intros H. unfold seenAt. by rewrite lookup_insert_ne. Qed.

Lemma countsOf_empty : countsOf schema slug [] ∅.
Proof. intros base. rewrite seenAt_empty. by destruct (inheritedKey base). Qed.

Lemma headings_ids l :
  ∀ earlier hs seen,
    countsOf schema slug earlier seen →
    map heading_id (fst (fold_left step l (hs, seen)))
    = map heading_id hs ++ headingIds schema slug earlier l.
Proof.
  induction l as [|n l IH]; intros earlier hs seen Hseen; cbn [fold_left headingIds].
  - by rewrite app_nil_r.
  - destruct (isHeadingNode n) eqn:E.
    + rewrite headingVisit_heading by (by apply String.eqb_eq). cbn zeta.
      assert (Hb0 : baseId schema slug n = slug (textContent schema n)) by done.
      rewrite Hb0. unfold headingToSlug. set (b0 := slug (textContent schema n)) in *.
      pose proof (occurrences_nonneg b0 earlier) as Hk.
      rewrite (IH (earlier ++ [n])).
      * rewrite map_app, <- app_assoc. cbn [map heading_id app]. do 2 f_equal.
        rewrite (Hseen b0).
        destruct (inheritedKey b0); [done|]. cbn [orb].
        destruct (occurrences schema slug b0 earlier =? 0) eqn:Ek; [done|].
        apply Z.eqb_neq in Ek.
        by replace (occurrences schema slug b0 earlier >? 0) with true by zcmp.
      * intros base. rewrite occurrences_snoc, E, Hb0. cbn [andb].
        pose proof (occurrences_nonneg base earlier) as Hb.
        destruct (String.eqb b0 base) eqn:Eb.
        -- apply String.eqb_eq in Eb. subst base. rewrite seenAt_insert_eq.
           rewrite (Hseen b0).
           destruct (inheritedKey b0); [done|].
           replace (occurrences schema slug b0 earlier + 1 =? 0) with false by zcmp.
           destruct (occurrences schema slug b0 earlier =? 0) eqn:Ek; [|done].
           apply Z.eqb_eq in Ek. by rewrite Ek.
        -- apply String.eqb_neq in Eb. rewrite seenAt_insert_ne by done.
           rewrite Z.add_0_r. apply Hseen.
    + rewrite headingVisit_not_heading by done. apply IH.
      intros base. rewrite occurrences_snoc, E. cbn [andb]. rewrite Z.add_0_r.
      apply Hseen.
Qed.

(** X9. The id of a heading is its base id when no earlier heading of the
    document has the same base id, and also when the base id is a property
    name of [Object.prototype], which the object [previouslySeen] inherits;
    otherwise it is [headingToSlug] of the heading and the number of
    earlier headings with the same base id. *)
Theorem getHeadings_ids (d : Node) :
  map heading_id (getHeadings schema slug d) = headingIds schema slug [] (children d).
Proof.
  unfold getHeadings, forEach. rewrite (headings_ids _ []); [done|].
  apply countsOf_empty.
Qed.

Lemma headingIds_distinct l :
  ∀ earlier,
    NoDup (map (baseId schema slug) (filter (λ n, isHeadingNode n = true) (earlier ++ l))) →
    headingIds schema slug earlier l
    = map (baseId schema slug) (filter (λ n, isHeadingNode n = true) l).
Proof.
  induction l as [|n l IH]; intros earlier Hnd; cbn [headingIds]; [done|].
  assert (Hnext : NoDup (map (baseId schema slug)
                           (filter (λ n, isHeadingNode n = true) ((earlier ++ [n]) ++ l))))
    by (by rewrite <- app_assoc).
  destruct (isHeadingNode n) eqn:E.
  - rewrite filter_cons_True by done. cbn [map]. rewrite IH by done. f_equal.
    replace (occurrences schema slug (baseId schema slug n) earlier) with 0;
      [by rewrite orb_true_r|].
    unfold occurrences. rewrite filter_none; [done|].
    intros m Hm [Hh Hb].
    rewrite filter_app, filter_cons_True, map_app in Hnd by done.
    apply NoDup_app in Hnd as (_ & Hnd & _).
    apply (Hnd (baseId schema slug n)); [|left].
    rewrite <- Hb. apply list_elem_of_In, in_map, list_elem_of_In.
    by apply list_elem_of_filter.
  - rewrite filter_cons_False by congruence. by apply IH.
Qed.

(** X10. When the base ids of the headings of a document are pairwise
    distinct, every heading keeps its base id, and the ids are pairwise
    distinct. *)
Theorem getHeadings_distinct_bases (d : Node) :
  NoDup (map (baseId schema slug)
           (filter (λ n, isHeadingNode n = true) (children d))) →
  map heading_id (getHeadings schema slug d)
  = map (baseId schema slug) (filter (λ n, isHeadingNode n = true) (children d))
  ∧ NoDup (map heading_id (getHeadings schema slug d)).
Proof.
  intros Hnd.
  assert (H : map heading_id (getHeadings schema slug d)
              = map (baseId schema slug)
                  (filter (λ n, isHeadingNode n = true) (children d))).
  { unfold getHeadings, forEach. rewrite (headings_ids _ []).
    - by apply headingIds_distinct.
    - apply countsOf_empty. }
  split; [exact H|]. by rewrite H.
Qed.

Lemma string_app_inj (a x y : string) : a +:+ x = a +:+ y → x = y.
Proof.
  induction a as [|c a IH]; [done|]. rewrite !string_app_cons.
  intros H. apply IH. congruence.
Qed.

Lemma duplicateIds_later base k n x :
  0 < k → x ∈ duplicateIds base k n →
  ∃ j, k ≤ j ∧ x = base +:+ "-" +:+ pretty j.
Proof.
  revert k. induction n as [|n IH]; intros k Hk Hx; cbn [duplicateIds] in Hx.
  - by apply elem_of_nil in Hx.
  - apply elem_of_cons in Hx as [->|Hx].
    + exists k. split; [lia|]. by replace (k =? 0) with false by zcmp.
    + destruct (IH (k + 1)) as (j & Hj & ->); [lia|done|]. exists j. split; [lia|done].
Qed.

Lemma NoDup_duplicateIds base k n : 0 ≤ k → NoDup (duplicateIds base k n).
Proof.
  revert k. induction n as [|n IH]; intros k Hk; cbn [duplicateIds]; [constructor|].
  apply NoDup_cons. split; [|apply IH; lia].
  intros Hin. apply duplicateIds_later in Hin as (j & Hj & Heq); [|lia].
  destruct (k =? 0) eqn:Ek.
  - apply (f_equal String.length) in Heq. rewrite !string_length_app in Heq.
    simpl in Heq. lia.
  - apply string_app_inj, string_app_inj in Heq.
    apply (inj pretty) in Heq. lia.
Qed.

(** Headings that share a base id that is a property name of
    [Object.prototype] all get the base id itself. *)
Lemma headingIds_inherited base l :
  inheritedKey base = true →
  Forall (λ n, isHeadingNode n = true → baseId schema slug n = base) l →
  ∀ earlier,
    headingIds schema slug earlier l
    = repeat base (length (filter (λ n, isHeadingNode n = true) l)).
Proof.
  intros Hb. induction 1 as [|n l Hn Hl IH]; intros earlier; cbn [headingIds]; [done|].
  destruct (isHeadingNode n) eqn:E.
  - rewrite filter_cons_True by done. rewrite (Hn eq_refl), Hb. cbn [orb length repeat].
    by rewrite IH.
  - rewrite filter_cons_False by congruence. apply IH.
Qed.

Lemma getHeadings_inherited (base : string) (d : Node) :
  inheritedKey base = true →
  Forall (λ n, isHeadingNode n = true → baseId schema slug n = base) (children d) →
  map heading_id (getHeadings schema slug d)
  = repeat base (length (filter (λ n, isHeadingNode n = true) (children d))).
Proof.
  intros Hb H. unfold getHeadings, forEach.
  rewrite (headings_ids _ []) by apply countsOf_empty.
  by apply headingIds_inherited.
Qed.

(** X11. Headings with one and the same base id get pairwise distinct
    ids, whatever the slug function and however many they are, when the
    base id is not a property name of [Object.prototype]. *)
Theorem getHeadings_identical_unique (base : string) (d : Node) :
  inheritedKey base = false →
  Forall (λ n, typeName n = "heading" → slug (textContent schema n) = base) (children d) →
  NoDup (map heading_id (getHeadings schema slug d)).
Proof.
  intros Hb H. rewrite (getHeadings_same_base schema slug base) by done.
  by apply NoDup_duplicateIds.
Qed.
End HeadingOrder.

(** ** More on [trim] *)

Lemma Forall_takeRun {A} (p : A → bool) (l : list A) :
  Forall (λ x, p x = true) (takeRun p l).
Proof.
  induction l as [|x l IH]; cbn [takeRun]; [constructor|].
  destruct (p x) eqn:E; by constructor.
Qed.

Lemma wf_Elem_leaf ty at_ cs ms :
  wf (Elem ty at_ cs ms) = true → cs ≠ [] → leaf ty = false.
Proof.
  intros [Hleaf _]%wf_Elem Hne. destruct (leaf ty); [|done]. by destruct Hne; apply Hleaf.
Qed.

Lemma wf_Elem_intro ty at_ cs cs' ms :
  wf (Elem ty at_ cs ms) = true → leaf ty = false →
  Forall (λ c, wf c = true) cs' → wf (Elem ty at_ cs' ms) = true.
Proof.
  cbn [wf]. rewrite !andb_true_iff. intros [[Hname _] _] Hl Hcs'.
  rewrite Hl. cbn [negb orb]. repeat split; [done|].
  apply forallb_forall. intros c Hc. rewrite Forall_forall in Hcs'.
  by apply Hcs', list_elem_of_In.
Qed.

Section TrimMore.
Variable schema : Schema.

Local Abbreviation empty := (emptyText schema).

(** X12. A well-formed document whose first and last child both have
    non-blank plain text is returned by [trim] as it is. *)
Theorem trim_noop (d : Node) :
  wf d = true →
  (∀ c rest, children d = c :: rest → empty c = false) →
  (∀ c rest, children d = rest ++ [c] → empty c = false) →
  trim schema d = Some d.
Proof.
  intros Hwf Hfirst Hlast.
  destruct (Z.le_gt_cases (childCount d) 1) as [Hle|Hgt].
  { by apply trim_guard, Z.leb_le. }
  destruct d as [s ms|ty at_ cs ms]; [done|].
  unfold childCount in Hgt. cbn [children] in *.
  assert (Hl : leaf ty = false).
  { apply (wf_Elem_leaf _ _ _ _ Hwf). intros ->. simpl in Hgt. lia. }
  unfold trim, childCount. cbn [children].
  replace (Z.of_nat (length cs) <=? 1) with false by zcmp.
  rewrite trimStart_Elem, trimEnd_Elem, cut_Elem by done.
  assert (H1 : takeRun empty cs = []).
  { destruct cs as [|c rest]; [done|]. cbn [takeRun]. by rewrite (Hfirst c rest). }
  assert (H2 : takeRun empty (rev cs) = []).
  { destruct (rev cs) as [|c rest] eqn:E; [done|]. cbn [takeRun].
    rewrite (Hlast c (rev rest)); [done|].
    rewrite <- (rev_involutive cs), E. reflexivity. }
  rewrite H1, H2. cbn [fragmentSize]. rewrite Z.sub_0_r, !Z.eqb_refl. reflexivity.
Qed.

(** The result of [trim] on a document with two or more children, with the
    runs it removes. *)
Lemma trim_split ty at_ cs ms :
  wf (Elem ty at_ cs ms) = true → (2 ≤ length cs)%nat →
  trim schema (Elem ty at_ cs ms) = Some (Elem ty at_ (strip empty cs) ms)
  ∧ ∃ l1 l3,
      cs = l1 ++ strip empty cs ++ l3
      ∧ Forall (λ c, empty c = true) l1 ∧ Forall (λ c, empty c = true) l3.
Proof.
  intros Hwf Hlen.
  pose proof (wf_children_pos _ Hwf) as Hsz. cbn [children] in Hsz.
  assert (Hl : leaf ty = false).
  { apply (wf_Elem_leaf _ _ _ _ Hwf). intros ->. simpl in Hlen. lia. }
  split; [by apply trim_strip|].
  destruct (dropRun empty cs) as [|x m] eqn:Hd.
  - exists cs, []. rewrite strip_nil, app_nil_r by done.
    split; [done|]. split; [by apply dropRun_all_forall|constructor].
  - destruct (strip_split empty cs x m Hd) as [Hsplit _].
    exists (takeRun empty cs), (rev (takeRun empty (rev cs))).
    split; [done|]. split; [apply Forall_takeRun|apply Forall_rev, Forall_takeRun].
Qed.

(** X13. [trim] removes children only at the two ends of a well-formed
    document, and only children whose plain text is blank; the result has
    the same type, attributes and marks around the children that are left. *)
Theorem trim_removes_ends (d : Node) :
  wf d = true →
  ∃ l1 l2 l3,
    children d = l1 ++ l2 ++ l3
    ∧ Forall (λ c, empty c = true) l1 ∧ Forall (λ c, empty c = true) l3
    ∧ trim schema d = Some (copy d l2).
Proof.
  intros Hwf.
  destruct (Z.le_gt_cases (childCount d) 1) as [Hle|Hgt].
  { exists [], (children d), []. rewrite app_nil_r. cbn [app].
    split; [done|]. split; [constructor|]. split; [constructor|].
    rewrite trim_guard by (by apply Z.leb_le). by destruct d. }
  destruct d as [s ms|ty at_ cs ms]; [done|].
  unfold childCount in Hgt. cbn [children] in *.
  destruct (trim_split ty at_ cs ms Hwf) as (Ht & l1 & l3 & Hsplit & H1 & H3); [lia|].
  by exists l1, (strip empty cs), l3.
Qed.

(** X14. After [trim] of a well-formed document with two or more children
    the first and the last child that are left have non-blank plain text. *)
Theorem trim_ends_nonempty (d d' : Node) :
  wf d = true → 2 ≤ childCount d → trim schema d = Some d' →
  (∀ c rest, children d' = c :: rest → empty c = false)
  ∧ (∀ c rest, children d' = rest ++ [c] → empty c = false).
Proof.
  intros Hwf Hn Ht.
  destruct d as [s ms|ty at_ cs ms]; [unfold childCount in Hn; simpl in Hn; lia|].
  unfold childCount in Hn. cbn [children] in Hn.
  destruct (trim_split ty at_ cs ms Hwf) as [Ht' _]; [lia|].
  rewrite Ht' in Ht. injection Ht as <-. cbn [children]. split.
  - intros c rest E. apply (dropRun_head empty (strip empty cs) c rest).
    by rewrite strip_head.
  - intros c rest E. unfold strip in E.
    apply (f_equal (@rev Node)) in E. rewrite rev_involutive, rev_app_distr in E.
    by apply (dropRun_head empty _ c (rev rest)) in E.
Qed.

(** X15. For a well-formed document with two or more children the range
    given to [cut] is degenerate, its end before its start, exactly when
    every child has blank plain text; otherwise the start is before the
    end. *)
Theorem trim_range (d : Node) :
  wf d = true → 2 ≤ childCount d →
  (trimEnd schema d < trimStart schema d ↔ Forall (λ c, empty c = true) (children d))
  ∧ (¬ Forall (λ c, empty c = true) (children d) →
     trimStart schema d < trimEnd schema d).
Proof.
  intros Hwf Hn.
  destruct d as [s ms|ty at_ cs ms]; [unfold childCount in Hn; simpl in Hn; lia|].
  unfold childCount in Hn. cbn [children] in *.
  pose proof (wf_children_pos _ Hwf) as Hsz. cbn [children] in Hsz.
  assert (Hl : leaf ty = false).
  { apply (wf_Elem_leaf _ _ _ _ Hwf). intros ->. simpl in Hn. lia. }
  rewrite trimStart_Elem, trimEnd_Elem by done.
  destruct (dropRun empty cs) as [|x m] eqn:Hd.
  - assert (Hall : Forall (λ c, empty c = true) cs) by (by apply dropRun_all_forall).
    assert (Hr : takeRun empty (rev cs) = rev cs).
    { by apply dropRun_all, dropRun_all_forall, Forall_rev. }
    rewrite (dropRun_all _ _ Hd), Hr, fragmentSize_rev.
    assert (0 < fragmentSize cs).
    { destruct Hsz as [|c cs' Hc _]; [simpl in Hn; lia|]. simpl.
      pose proof (fragmentSize_nonneg cs'). lia. }
    split; [split; [done|lia]|done].
  - assert (Hnot : ¬ Forall (λ c, empty c = true) cs).
    { intros Hall. apply dropRun_all_forall in Hall. congruence. }
    destruct (strip_split empty cs x m Hd) as [Hsplit Hne].
    assert (Hlt : fragmentSize (takeRun empty cs)
                  < fragmentSize cs - fragmentSize (takeRun empty (rev cs))).
    { rewrite <- (fragmentSize_rev (takeRun empty (rev cs))).
      rewrite Hsplit at 2. rewrite !fragmentSize_app.
      enough (0 < fragmentSize (strip empty cs)) by lia.
      assert (Hz : Forall (λ c, 0 < nodeSize c) (strip empty cs)) by (by apply Forall_strip).
      destruct Hz as [|c l Hc _]; [done|]. simpl.
      pose proof (fragmentSize_nonneg l). lia. }
    split; [split; [lia|done]|done].
Qed.

(** X16. [trim] keeps the tree invariants [wf] of a document (text nodes
    are not empty, nodes of a leaf type have no content), but not the rule
    of the schema that a document has a child: the result has no children
    exactly when the document has none, or has two or more children that
    are all blank. *)
Theorem trim_wf (d d' : Node) :
  wf d = true → trim schema d = Some d' →
  wf d' = true
  ∧ (children d' = [] ↔
     children d = []
     ∨ (2 ≤ childCount d ∧ Forall (λ c, empty c = true) (children d))).
Proof.
  intros Hwf Ht.
  destruct (Z.le_gt_cases (childCount d) 1) as [Hle|Hgt].
  { rewrite trim_guard in Ht by (by apply Z.leb_le). injection Ht as <-.
    split; [done|]. split; [by left|]. intros [H|[H _]]; [done|lia]. }
  destruct d as [s ms|ty at_ cs ms]; [done|].
  unfold childCount in *. cbn [children] in *.
  destruct (trim_split ty at_ cs ms Hwf) as [Ht' _]; [lia|].
  rewrite Ht' in Ht. injection Ht as <-. split.
  - apply (wf_Elem_intro _ _ cs); [done| |].
    + apply (wf_Elem_leaf _ _ _ _ Hwf). intros ->. simpl in Hgt. lia.
    + apply Forall_strip. by apply wf_Elem in Hwf as [_ ?].
  - cbn [children]. split.
    + intros Hs. right. split; [lia|]. apply dropRun_all_forall.
      destruct (dropRun empty cs) as [|x m] eqn:Hd; [done|].
      by destruct (strip_split empty cs x m Hd) as [_ Hne].
    + intros [->|[_ Hall]]; [simpl in Hgt; lia|].
      by apply strip_nil, dropRun_all_forall.
Qed.
End TrimMore.

(** ** Text content as the text of the text nodes *)

Lemma deepText_Elem ty at_ cs ms : deepText (Elem ty at_ cs ms) = deepTexts cs.
Proof. reflexivity. Qed.

Lemma deepTexts_app l1 l2 : deepTexts (l1 ++ l2) = deepTexts l1 +:+ deepTexts l2.
Proof.
  induction l1 as [|c l1 IH]; [reflexivity|]. cbn [deepTexts app].
  by rewrite IH, string_app_assoc.
Qed.

Lemma plainType_noLeafText schema n :
  plainType schema n = true → noLeafText schema n = true.
Proof.
  unfold plainType, noLeafText, leafTextOf.
  destruct (schema !! typeName n) as [sp|]; [|done]. simpl.
  by destruct (spec_toPlainText sp), (spec_leafText sp).
Qed.

Lemma inside_app_middle n l1 l2 l3 : inside n l2 → inside n (l1 ++ l2 ++ l3).
Proof.
  rewrite !inside_visited. unfold preorder. rewrite !visited_app, !elem_of_app. auto.
Qed.

Section OwnText.
Variable schema : Schema.
(** The end of the range of the extraction. *)
Variable to : Z.

Local Abbreviation own := (textBetweenVisit schema 0 to "").

Lemma own_visit n p t first :
  wf n = true → noLeafText schema n = true → 0 ≤ p → p + nodeSize n ≤ to →
  own n p (t, first)
  = (t +:+ match n with TextNode s _ => s | Elem _ _ _ _ => "" end, first, true).
Proof.
  intros Hwf Hno Hp Hto. unfold textBetweenVisit.
  unfold noLeafText in Hno. destruct (leafTextOf schema n) eqn:Hleaf; [done|].
  assert (Hsep : ∀ g, separate (g && nonEmpty "") "" (t, first) = (t, first))
    by (intros g; unfold separate; by rewrite andb_false_r).
  rewrite Hsep. destruct n as [s ms|ty at_ cs ms].
  - replace (Z.max 0 p - p) with 0 by lia.
    rewrite slice_full; [done|]. simpl in Hto. lia.
  - by destruct (negb (isLeaf (Elem ty at_ cs ms))).
Qed.

Let concatenates (c : Node) : Prop :=
  wf c = true → noLeafText schema c = true →
  (∀ n, inside n (children c) → noLeafText schema n = true) →
  ∀ p t first,
    0 ≤ p → p + nodeSize c ≤ to →
    walkNode own c p (t, first) = (t +:+ deepText c, first).

Lemma walk_deepTexts l :
  Forall concatenates l → Forall (λ c, wf c = true) l →
  (∀ n, inside n l → noLeafText schema n = true) →
  ∀ p t first,
    0 ≤ p → p + fragmentSize l ≤ to →
    walk own l p (t, first) = (t +:+ deepTexts l, first).
Proof.
  induction l as [|c l IH]; intros Hcat Hwf Hno p t first Hp Hto;
    [by rewrite string_app_nil_r|].
  apply Forall_cons in Hcat as [Hc Hcat]. apply Forall_cons in Hwf as [Hwc Hwf].
  cbn [walk fragmentSize deepTexts] in *.
  pose proof (nodeSize_nonneg c). pose proof (fragmentSize_nonneg l).
  rewrite Hc; [|done| | |done|lia].
  - rewrite IH; [by rewrite string_app_assoc|done|done| |lia|lia].
    intros n Hn. apply Hno. destruct Hn as [l Hn|c' l Hc' Hn].
    + apply inside_here. by right.
    + eapply inside_below; [|exact Hn]. by right.
  - apply Hno, inside_here. by left.
  - intros n Hn. apply Hno. eapply inside_below; [|exact Hn]. by left.
Qed.

Lemma walkNode_deepText c : concatenates c.
Proof.
  induction c as [s ms|ty at_ cs ms IH] using Node_ind;
    intros Hwf Hno Hin p t first Hp Hto;
    rewrite walkNode_eq, own_visit by done; cbn [children walk]; [done|].
  pose proof (wf_Elem _ _ _ _ Hwf) as [Hleaf Hcs].
  rewrite nodeSize_Elem in Hto. rewrite string_app_nil_r, deepText_Elem.
  destruct (leaf ty).
  - rewrite Hleaf by done. cbn [walk deepTexts]. by rewrite string_app_nil_r.
  - apply walk_deepTexts; [done|done|done|lia|lia].
Qed.
End OwnText.

(** The text extraction of the tree over a whole well-formed fragment is
    the text of its text nodes in document order, when no node in it has a
    leaf text. *)
Lemma fragmentTextBetween_deepTexts schema l :
  Forall (λ c, wf c = true) l →
  (∀ n, inside n l → noLeafText schema n = true) →
  fragmentTextBetween schema l 0 (fragmentSize l) "" = deepTexts l.
Proof.
  intros Hwf Hno. unfold fragmentTextBetween.
  rewrite fragmentNodesBetween_step; [|done| |lia|lia].
  - rewrite walk_deepTexts; [done| |done|done|lia|lia].
    apply Forall_forall. intros c _. apply walkNode_deepText.
  - apply Forall_forall. intros c Hc to startPos st Hto.
    apply wf_full; [|done]. rewrite Forall_forall in Hwf. by apply Hwf.
Qed.

Lemma textContent_deepText schema d :
  wf d = true → noLeafText schema d = true →
  (∀ n, inside n (children d) → noLeafText schema n = true) →
  textContent schema d = deepText d.
Proof.
  intros Hwf Hno Hin. destruct d as [s ms|ty at_ cs ms]; [done|].
  cbn [textContent]. unfold noLeafText in Hno.
  destruct (leafTextOf schema (Elem ty at_ cs ms)); [done|].
  replace (if isLeaf (Elem ty at_ cs ms) then None else None)
    with (@None (Node → string)) by (by destruct (isLeaf _)).
  apply fragmentTextBetween_deepTexts; [|done]. by apply wf_Elem in Hwf as [_ ?].
Qed.

(** X17. For a well-formed document in which no node has a type with a
    leaf text, [isEmpty] holds exactly when every code unit of every text
    node of the document is white space. *)
Theorem isEmpty_whiteSpace (schema : Schema) (d : Node) :
  wf d = true → noLeafText schema d = true →
  (∀ n, inside n (children d) → noLeafText schema n = true) →
  isEmpty schema (Some d) = JsString.allWhiteSpace (deepText d).
Proof.
  intros Hwf Hno Hin. unfold isEmpty.
  by rewrite textContent_deepText, isBlank_allWhiteSpace.
Qed.

(** ** [trim] and [isEmpty] *)

Lemma textContent_nonleaf schema ty at_ cs ms :
  leaf ty = false →
  textContent schema (Elem ty at_ cs ms)
  = fragmentTextBetween schema cs 0 (fragmentSize cs) "".
Proof. intros Hl. cbn [textContent isLeaf]. by rewrite Hl. Qed.

(** Whether the plain text of a node is blank, read off its text nodes. *)
Lemma emptyText_deepText schema c :
  wf c = true → isText c = false →
  (∀ n, inside n (children c) → plainType schema n = true) →
  emptyText schema c = JsString.isBlank (deepText c).
Proof.
  intros Hwf Htext Hplain. destruct c as [s ms|ty at_ cs ms]; [done|].
  pose proof (wf_Elem _ _ _ _ Hwf) as [_ Hcs]. cbn [children] in Hplain.
  unfold emptyText, toPlainText, textBetween.
  change (nodesBetween ?f ?n 0 (contentSize ?n) 0 ?st) with (descendants f n st).
  rewrite descendants_walk by done. cbn [children].
  rewrite deepText_Elem, <- (fragmentTextBetween_deepTexts schema cs);
    [|done|intros n Hn; by apply plainType_noLeafText, Hplain].
  unfold fragmentTextBetween.
  rewrite fragmentNodesBetween_step; [|done| |lia|lia].
  - symmetry. apply walk_sameBlank; [|done|done|lia|lia|done].
    apply Forall_forall. intros c _. apply walkNode_sameBlank.
  - apply Forall_forall. intros c Hc to startPos st Hto.
    apply wf_full; [|done]. rewrite Forall_forall in Hcs. by apply Hcs.
Qed.

Lemma deepTexts_blank l :
  Forall (λ c, JsString.isBlank (deepText c) = true) l →
  JsString.isBlank (deepTexts l) = true.
Proof.
  induction 1 as [|c l Hc _ IH]; [done|]. cbn [deepTexts].
  by rewrite isBlank_app, Hc, IH.
Qed.

(** X18. [trim] does not change whether a document is empty: for a
    well-formed document whose children are not text nodes and in which no
    node has a type with a serializer or a leaf text, the trimmed document
    is empty exactly when the document is. *)
Theorem trim_keeps_emptiness (schema : Schema) (d : Node) :
  wf d = true →
  Forall (λ c, isText c = false) (children d) →
  (∀ n, inside n (children d) → plainType schema n = true) →
  ∃ d', trim schema d = Some d'
        ∧ isEmpty schema (Some d') = isEmpty schema (Some d).
Proof.
  intros Hwf Htext Hplain.
  destruct (Z.le_gt_cases (childCount d) 1) as [Hle|Hgt].
  { exists d. split; [by apply trim_guard, Z.leb_le|done]. }
  destruct d as [s ms|ty at_ cs ms]; [done|].
  unfold childCount in Hgt. cbn [children] in *.
  destruct (trim_split schema ty at_ cs ms Hwf)
    as (Ht & l1 & l3 & Hsplit & H1 & H3); [lia|].
  set (l2 := strip (emptyText schema) cs) in *.
  exists (Elem ty at_ l2 ms). split; [done|].
  pose proof (wf_Elem _ _ _ _ Hwf) as [_ Hcs].
  assert (Hl : leaf ty = false).
  { apply (wf_Elem_leaf _ _ _ _ Hwf). intros ->. simpl in Hgt. lia. }
  assert (Hblank : ∀ l, (∃ a b, cs = a ++ l ++ b) →
                     Forall (λ c, emptyText schema c = true) l →
                     JsString.isBlank (deepTexts l) = true).
  { intros l (a & b & Hab) Hl'. apply deepTexts_blank.
    rewrite Forall_forall in Hl' |- *. intros c Hc.
    assert (Hin : c ∈ cs) by (rewrite Hab, !elem_of_app; auto).
    rewrite <- emptyText_deepText with (schema := schema); [by apply Hl'| | |].
    - rewrite Forall_forall in Hcs. by apply Hcs.
    - rewrite Forall_forall in Htext. by apply Htext.
    - intros n Hn. apply Hplain. by apply inside_below with c. }
  unfold isEmpty. rewrite !textContent_nonleaf by done.
  assert (Hwf2 : Forall (λ c, wf c = true) l2).
  { unfold l2. by apply Forall_strip. }
  assert (Hno2 : ∀ n, inside n l2 → noLeafText schema n = true).
  { intros n Hn. apply plainType_noLeafText, Hplain. rewrite Hsplit.
    by apply inside_app_middle. }
  assert (Hno : ∀ n, inside n cs → noLeafText schema n = true).
  { intros n Hn. by apply plainType_noLeafText, Hplain. }
  rewrite (fragmentTextBetween_deepTexts schema l2 Hwf2 Hno2).
  rewrite (fragmentTextBetween_deepTexts schema cs Hcs Hno).
  assert (Hb1 : JsString.isBlank (deepTexts l1) = true).
  { apply Hblank; [|done]. by exists [], (l2 ++ l3). }
  assert (Hb3 : JsString.isBlank (deepTexts l3) = true).
  { apply Hblank; [|done]. exists (l1 ++ l2), []. by rewrite app_nil_r, <- app_assoc. }
  clearbody l2. rewrite Hsplit at 1.
  rewrite !deepTexts_app, !isBlank_app, Hb1, Hb3, andb_true_r. done.
Qed.

(** ** The attachment patterns *)

Lemma matchAt_cat_inv ic r1 r2 s m rest caps :
  matchAt ic (RCat r1 r2) s = Some (m, rest, caps) →
  ∃ m1 s1 c1 m2 c2,
    matchAt ic r1 s = Some (m1, s1, c1) ∧ matchAt ic r2 s1 = Some (m2, rest, c2)
    ∧ m = m1 +:+ m2 ∧ caps = c1 ++ c2.
Proof.
  cbn [matchAt]. destruct (matchAt ic r1 s) as [[[m1 s1] c1]|] eqn:E1; [|done]. cbn.
  destruct (matchAt ic r2 s1) as [[[m2 s2] c2]|] eqn:E2; [|done]. cbn.
  intros [= <- <- <-]. by exists m1, s1, c1, m2, c2.
Qed.

Lemma matchAt_cat_intro ic r1 r2 s m1 s1 c1 m2 rest c2 :
  matchAt ic r1 s = Some (m1, s1, c1) → matchAt ic r2 s1 = Some (m2, rest, c2) →
  matchAt ic (RCat r1 r2) s = Some (m1 +:+ m2, rest, c1 ++ c2).
Proof. intros H1 H2. cbn [matchAt]. rewrite H1. cbn. rewrite H2. done. Qed.

Lemma matchAt_repeat_S ic r n s :
  matchAt ic (RRepeat r (Datatypes.S n)) s
  = '(m1, s1, c1) ← matchAt ic r s;
    '(m2, s2, c2) ← matchAt ic (RRepeat r n) s1;
    Some (m1 +:+ m2, s2, c1 ++ c2).
Proof. reflexivity. Qed.

Lemma matchAt_repeat_S_inv ic r n s m rest caps :
  matchAt ic (RRepeat r (Datatypes.S n)) s = Some (m, rest, caps) →
  ∃ m1 s1 c1 m2 c2,
    matchAt ic r s = Some (m1, s1, c1)
    ∧ matchAt ic (RRepeat r n) s1 = Some (m2, rest, c2)
    ∧ m = m1 +:+ m2 ∧ caps = c1 ++ c2.
Proof.
  rewrite matchAt_repeat_S.
  destruct (matchAt ic r s) as [[[m1 s1] c1]|] eqn:E1; [|done]. cbn -[matchAt].
  destruct (matchAt ic (RRepeat r n) s1) as [[[m2 s2] c2]|] eqn:E2; [|done].
  cbn -[matchAt]. intros [= <- <- <-]. by exists m1, s1, c1, m2, c2.
Qed.

Lemma matchAt_repeat_S_intro ic r n s m1 s1 c1 m2 rest c2 :
  matchAt ic r s = Some (m1, s1, c1) →
  matchAt ic (RRepeat r n) s1 = Some (m2, rest, c2) →
  matchAt ic (RRepeat r (Datatypes.S n)) s = Some (m1 +:+ m2, rest, c1 ++ c2).
Proof.
  intros H1 H2. rewrite matchAt_repeat_S, H1. cbn -[matchAt]. by rewrite H2.
Qed.

Lemma matchAt_group_inv ic name r s m rest caps :
  matchAt ic (RGroup name r) s = Some (m, rest, caps) →
  ∃ c, matchAt ic r s = Some (m, rest, c) ∧ caps = (name, m) :: c.
Proof.
  cbn [matchAt]. destruct (matchAt ic r s) as [[[m' s'] c]|] eqn:E; [|done]. cbn.
  intros [= <- <- <-]. by exists c.
Qed.

Lemma matchOne_inv test s m rest caps :
  matchOne test s = Some (m, rest, caps) →
  ∃ x, s = String x rest ∧ m = String x "" ∧ test x = true ∧ caps = [].
Proof.
  destruct s as [|x s']; [done|]. cbn [matchOne].
  destruct (test x) eqn:E; [|done]. intros [= <- <- <-]. by exists x.
Qed.

(** With the [i] flag the class [[0-9a-f]] is the hexadecimal digits in
    either case. *)
Lemma hexClass_isHexDigit x :
  classMatches true [("0", "9"); ("a", "f")]%char x = isHexDigit x.
Proof.
  destruct x as [b0 b1 b2 b3 b4 b5 b6 b7].
  destruct b0, b1, b2, b3, b4, b5, b6, b7; reflexivity.
Qed.

(** A character that is not a letter matches only itself. *)
Lemma charMatches_hyphen x : charMatches true "-" x = Ascii.eqb "-" x.
Proof.
  destruct x as [b0 b1 b2 b3 b4 b5 b6 b7].
  destruct b0, b1, b2, b3, b4, b5, b6, b7; reflexivity.
Qed.

Lemma charMatches_slash x : charMatches true "/" x = Ascii.eqb "/" x.
Proof.
  destruct x as [b0 b1 b2 b3 b4 b5 b6 b7].
  destruct b0, b1, b2, b3, b4, b5, b6, b7; reflexivity.
Qed.

Lemma hexString_cons n x s :
  hexString (Datatypes.S n) (String x s) = isHexDigit x && hexString n s.
Proof.
  unfold hexString. cbn [String.length String.list_ascii_of_string forallb Nat.eqb].
  destruct (isHexDigit x), (String.length s =? n)%nat; reflexivity.
Qed.

Lemma hexRun_sound n :
  ∀ s m rest caps,
    matchAt true (RRepeat hexClass n) s = Some (m, rest, caps) →
    s = m +:+ rest ∧ hexString n m = true ∧ caps = [].
Proof.
  induction n as [|n IH]; intros s m rest caps H.
  - cbn in H. injection H as <- <- <-. done.
  - apply matchAt_repeat_S_inv in H as (m1 & s1 & c1 & m2 & c2 & E1 & E2 & -> & ->).
    apply matchOne_inv in E1 as (x & -> & -> & Hx & ->).
    apply IH in E2 as (-> & Hm2 & ->).
    rewrite hexClass_isHexDigit in Hx.
    change (String x "" +:+ m2) with (String x m2).
    by rewrite hexString_cons, Hx, Hm2.
Qed.

Lemma hexRun_complete n :
  ∀ m rest,
    hexString n m = true →
    matchAt true (RRepeat hexClass n) (m +:+ rest) = Some (m, rest, []).
Proof.
  induction n as [|n IH]; intros m rest H.
  - destruct m; [done|]. unfold hexString in H. simpl in H. done.
  - destruct m as [|x m]; [unfold hexString in H; simpl in H; done|].
    rewrite hexString_cons in H. apply andb_true_iff in H as [Hx Hm].
    rewrite string_app_cons.
    apply (matchAt_repeat_S_intro true hexClass n _ (String x "") (m +:+ rest) []);
      [|by apply IH].
    cbn [matchAt hexClass matchOne]. by rewrite hexClass_isHexDigit, Hx.
Qed.

Lemma hyphen_inv s m rest caps :
  matchAt true (RChar "-") s = Some (m, rest, caps) →
  s = "-" +:+ rest ∧ m = "-" ∧ caps = [].
Proof.
  intros (x & -> & -> & Hx & ->)%matchOne_inv.
  rewrite charMatches_hyphen in Hx. apply Ascii.eqb_eq in Hx as <-. done.
Qed.

Lemma uuid_sound s m rest caps :
  matchAt true uuidPattern s = Some (m, rest, caps) →
  s = m +:+ rest ∧ uuidShaped m ∧ caps = [].
Proof.
  unfold uuidPattern. intros H.
  apply matchAt_cat_inv in H as (a & s1 & c1 & m1 & k1 & Ha & H & -> & ->).
  apply hexRun_sound in Ha as (-> & Ha & ->).
  apply matchAt_cat_inv in H as (h1 & s2 & c2 & m2 & k2 & Hh & H & -> & ->).
  apply hyphen_inv in Hh as (-> & -> & ->).
  apply matchAt_cat_inv in H as (b & s3 & c3 & m3 & k3 & Hb & H & -> & ->).
  apply hexRun_sound in Hb as (-> & Hb & ->).
  apply matchAt_cat_inv in H as (h2 & s4 & c4 & m4 & k4 & Hh & H & -> & ->).
  apply hyphen_inv in Hh as (-> & -> & ->).
  apply matchAt_cat_inv in H as (c & s5 & c5 & m5 & k5 & Hc & H & -> & ->).
  apply hexRun_sound in Hc as (-> & Hc & ->).
  apply matchAt_cat_inv in H as (h3 & s6 & c6 & m6 & k6 & Hh & H & -> & ->).
  apply hyphen_inv in Hh as (-> & -> & ->).
  apply matchAt_cat_inv in H as (d & s7 & c7 & m7 & k7 & Hd & H & -> & ->).
  apply hexRun_sound in Hd as (-> & Hd & ->).
  apply matchAt_cat_inv in H as (h4 & s8 & c8 & e & k8 & Hh & He & -> & ->).
  apply hyphen_inv in Hh as (-> & -> & ->).
  apply hexRun_sound in He as (-> & He & ->).
  split; [by rewrite <- !string_app_assoc|]. split; [|done].
  by exists a, b, c, d, e.
Qed.

Lemma matchAt_cat_plain ic r1 r2 s m1 s1 m2 rest c2 :
  matchAt ic r1 s = Some (m1, s1, []) → matchAt ic r2 s1 = Some (m2, rest, c2) →
  matchAt ic (RCat r1 r2) s = Some (m1 +:+ m2, rest, c2).
Proof. intros H1 H2. by rewrite (matchAt_cat_intro _ _ _ _ _ _ _ _ _ _ H1 H2). Qed.

Lemma hyphen_complete rest :
  matchAt true (RChar "-") ("-" +:+ rest) = Some ("-", rest, []).
Proof. reflexivity. Qed.

Lemma uuid_complete u rest :
  uuidShaped u → matchAt true uuidPattern (u +:+ rest) = Some (u, rest, []).
Proof.
  intros (a & b & c & d & e & -> & Ha & Hb & Hc & Hd & He). unfold uuidPattern.
  rewrite <- !string_app_assoc.
  repeat first
    [ eapply matchAt_cat_plain; [by apply hexRun_complete|]
    | eapply matchAt_cat_plain; [by apply hyphen_complete|] ].
  by apply hexRun_complete.
Qed.

Lemma literal_sound l :
  ∀ s m rest caps,
    matchAt true (literal l) s = Some (m, rest, caps) →
    s = m +:+ rest ∧ canonicalText m = canonicalText l ∧ caps = [].
Proof.
  induction l as [|c l IH]; intros s m rest caps H; cbn [literal] in H.
  - cbn in H. by injection H as <- <- <-.
  - apply matchAt_cat_inv in H as (m1 & s1 & c1 & m2 & c2 & E1 & E2 & -> & ->).
    apply matchOne_inv in E1 as (x & -> & -> & Hx & ->).
    apply IH in E2 as (-> & Hm2 & ->).
    cbn [charMatches] in Hx. apply Ascii.eqb_eq in Hx.
    change (String x "" +:+ m2) with (String x m2). cbn [canonicalText].
    by rewrite Hm2, Hx.
Qed.

Lemma literal_complete l :
  ∀ m rest,
    canonicalText m = canonicalText l →
    matchAt true (literal l) (m +:+ rest) = Some (m, rest, []).
Proof.
  induction l as [|c l IH]; intros m rest H; destruct m as [|x m]; try done.
  cbn [canonicalText] in H. injection H as Hx Hm. cbn [literal].
  change (String x m) with (String x "" +:+ m).
  rewrite <- string_app_assoc.
  apply matchAt_cat_plain with (s1 := m +:+ rest); [|by apply IH].
  change (String x "" +:+ m +:+ rest) with (String x (m +:+ rest)).
  cbn [matchAt matchOne charMatches]. by rewrite Hx, Ascii.eqb_refl.
Qed.

(** A match that [searchFrom] reports is a match of the pattern at the
    reported position. *)
Lemma searchFrom_sound ic r s :
  ∀ index mt,
    searchFrom ic r s index = Some mt →
    ∃ pre s' rest,
      s = pre +:+ s'
      ∧ match_index mt = index + Z.of_nat (String.length pre)
      ∧ matchAt ic r s' = Some (match_text mt, rest, match_captures mt).
Proof.
  induction s as [|x s IH]; intros index mt H; cbn [searchFrom] in H.
  - destruct (matchAt ic r "") as [[[m rest] caps]|] eqn:E; [|done].
    injection H as <-. exists "", "", rest. cbn. split; [done|]. split; [lia|done].
  - destruct (matchAt ic r (String x s)) as [[[m rest] caps]|] eqn:E.
    + injection H as <-. exists "", (String x s), rest. cbn.
      split; [done|]. split; [lia|done].
    + apply IH in H as (pre & s' & rest & -> & Hi & Hm).
      exists (String x pre), s', rest. split; [done|]. split; [|done].
      cbn [String.length]. lia.
Qed.

Lemma searchFrom_here ic r s index m rest caps :
  matchAt ic r s = Some (m, rest, caps) →
  searchFrom ic r s index
  = Some {| match_index := index; match_text := m; match_captures := caps |}.
Proof. intros H. destruct s; cbn [searchFrom]; by rewrite H. Qed.

(** When the pattern matches somewhere in the input, [searchFrom] reports a
    match that starts there or before. *)
Lemma searchFrom_finds ic r pre s m rest caps :
  matchAt ic r s = Some (m, rest, caps) →
  ∀ index, ∃ mt,
    searchFrom ic r (pre +:+ s) index = Some mt
    ∧ index ≤ match_index mt ≤ index + Z.of_nat (String.length pre).
Proof.
  intros H. induction pre as [|x pre IH]; intros index.
  - rewrite (searchFrom_here _ _ _ _ _ _ _ H). eexists. split; [done|]. cbn. lia.
  - rewrite string_app_cons. cbn [searchFrom].
    destruct (matchAt ic r (String x (pre +:+ s))) as [[[m' rest'] caps']|].
    + eexists. split; [done|]. cbn. lia.
    + destruct (IH (index + 1)) as (mt & Hmt & Hi). exists mt. split; [done|].
      cbn [String.length]. lia.
Qed.

(** X19. Whatever [attachmentRedirectRegex] matches is, at the reported
    index, the text "/api/attachments.redirect?id=" in any mix of cases
    followed by an identifier of the shape 8-4-4-4-12 in hexadecimal digits,
    and the group [id] is that identifier. *)
Theorem attachmentRedirectRegex_sound (s : string) (mt : Match) :
  exec attachmentRedirectRegex s = Some mt →
  ∃ pre lit id post,
    s = pre +:+ lit +:+ id +:+ post
    ∧ match_index mt = Z.of_nat (String.length pre)
    ∧ match_text mt = lit +:+ id
    ∧ canonicalText lit = canonicalText redirectText
    ∧ uuidShaped id
    ∧ namedGroup "id" mt = Some id.
Proof.
  intros H. apply searchFrom_sound in H as (pre & s' & rest & -> & Hi & H).
  cbn [attachmentRedirectRegex pattern ignoreCase] in H.
  apply matchAt_cat_inv in H as (lit & s1 & c1 & id & c2 & Hlit & Hid & Ht & Hc).
  apply literal_sound in Hlit as (-> & Hlit & ->).
  apply matchAt_group_inv in Hid as (c & Hid & ->).
  apply uuid_sound in Hid as (-> & Hid & ->).
  exists pre, lit, id, rest.
  split; [done|]. split; [lia|]. split; [done|]. split; [done|]. split; [done|].
  unfold namedGroup. by rewrite Hc.
Qed.

(** X20. [attachmentRedirectRegex] finds every reference: in a string that
    contains "/api/attachments.redirect?id=", in any mix of cases, followed
    by an identifier of the shape 8-4-4-4-12, it reports a match that starts
    at the reference or before; when the string starts with the reference,
    the match is the reference and the group [id] is its identifier. *)
Theorem attachmentRedirectRegex_complete (pre lit id post : string) :
  canonicalText lit = canonicalText redirectText → uuidShaped id →
  (∃ mt, exec attachmentRedirectRegex (pre +:+ lit +:+ id +:+ post) = Some mt
         ∧ 0 ≤ match_index mt ≤ Z.of_nat (String.length pre))
  ∧ exec attachmentRedirectRegex (lit +:+ id +:+ post)
    = Some {| match_index := 0; match_text := lit +:+ id;
              match_captures := [(Some "id", id)] |}.
Proof.
  intros Hlit Hid.
  assert (H : matchAt true (pattern attachmentRedirectRegex) (lit +:+ id +:+ post)
              = Some (lit +:+ id, post, [(Some "id", id)])).
  { cbn [attachmentRedirectRegex pattern].
    apply matchAt_cat_plain with (s1 := id +:+ post); [by apply literal_complete|].
    cbn [matchAt]. by rewrite uuid_complete. }
  split.
  - destruct (searchFrom_finds true _ pre _ _ _ _ H 0) as (mt & Hmt & Hi).
    exists mt. split; [exact Hmt|lia].
  - by apply searchFrom_here with (rest := post).
Qed.

Lemma slash_inv s m rest caps :
  matchAt true (RChar "/") s = Some (m, rest, caps) →
  s = "/" +:+ rest ∧ m = "/" ∧ caps = [].
Proof.
  intros (x & -> & -> & Hx & ->)%matchOne_inv.
  rewrite charMatches_slash in Hx. apply Ascii.eqb_eq in Hx as <-. done.
Qed.

(** X21. Whatever [attachmentPublicRegex] matches is, at the reported
    index, the text "public/" in any mix of cases, an identifier of the shape
    8-4-4-4-12, a slash and a second identifier of that shape; the first
    identifier is the unnamed group and the group [id] is the second one. *)
Theorem attachmentPublicRegex_sound (s : string) (mt : Match) :
  exec attachmentPublicRegex s = Some mt →
  ∃ pre lit key id post,
    s = pre +:+ lit +:+ key +:+ "/" +:+ id +:+ post
    ∧ match_index mt = Z.of_nat (String.length pre)
    ∧ match_text mt = lit +:+ key +:+ "/" +:+ id
    ∧ canonicalText lit = canonicalText publicText
    ∧ uuidShaped key ∧ uuidShaped id
    ∧ match_captures mt = [(None, key); (Some "id", id)]
    ∧ namedGroup "id" mt = Some id.
Proof.
  intros H. apply searchFrom_sound in H as (pre & s' & rest & -> & Hi & H).
  cbn [attachmentPublicRegex pattern ignoreCase] in H.
  apply matchAt_cat_inv in H as (lit & s1 & c1 & m1 & k1 & Hlit & H & Ht & Hc).
  apply literal_sound in Hlit as (-> & Hlit & ->).
  apply matchAt_cat_inv in H as (key & s2 & c2 & m2 & k2 & Hkey & H & -> & ->).
  apply matchAt_group_inv in Hkey as (c & Hkey & ->).
  apply uuid_sound in Hkey as (-> & Hkey & ->).
  apply matchAt_cat_inv in H as (sl & s3 & c3 & id & k3 & Hsl & Hid & -> & ->).
  apply slash_inv in Hsl as (-> & -> & ->).
  apply matchAt_group_inv in Hid as (c & Hid & ->).
  apply uuid_sound in Hid as (-> & Hid & ->).
  cbn [app] in Hc.
  exists pre, lit, key, id, rest.
  split; [done|]. split; [lia|]. split; [done|]. split; [done|].
  split; [done|]. split; [done|]. split; [done|].
  unfold namedGroup. by rewrite Hc.
Qed.

(** X22. [attachmentPublicRegex] finds every reference: in a string that
    contains "public/", in any mix of cases, followed by two identifiers of
    the shape 8-4-4-4-12 with a slash between them, it reports a match that
    starts at the reference or before; when the string starts with the
    reference, the match is the reference and the group [id] is the second
    identifier. *)
Theorem attachmentPublicRegex_complete (pre lit key id post : string) :
  canonicalText lit = canonicalText publicText → uuidShaped key → uuidShaped id →
  (∃ mt, exec attachmentPublicRegex (pre +:+ lit +:+ key +:+ "/" +:+ id +:+ post)
         = Some mt
         ∧ 0 ≤ match_index mt ≤ Z.of_nat (String.length pre))
  ∧ exec attachmentPublicRegex (lit +:+ key +:+ "/" +:+ id +:+ post)
    = Some {| match_index := 0; match_text := lit +:+ key +:+ "/" +:+ id;
              match_captures := [(None, key); (Some "id", id)] |}.
Proof.
  intros Hlit Hkey Hid.
  assert (H : matchAt true (pattern attachmentPublicRegex)
                (lit +:+ key +:+ "/" +:+ id +:+ post)
              = Some (lit +:+ key +:+ "/" +:+ id, post,
                      [(None, key); (Some "id", id)])).
  { cbn [attachmentPublicRegex pattern].
    apply matchAt_cat_plain with (s1 := key +:+ "/" +:+ id +:+ post);
      [by apply literal_complete|].
    apply (matchAt_cat_intro true _ _ _ key ("/" +:+ id +:+ post) [(None, key)]
             ("/" +:+ id) post [(Some "id", id)]).
    - cbn [matchAt]. by rewrite uuid_complete.
    - apply matchAt_cat_plain with (s1 := id +:+ post); [reflexivity|].
      cbn [matchAt]. by rewrite uuid_complete. }
  split.
  - destruct (searchFrom_finds true _ pre _ _ _ _ H 0) as (mt & Hmt & Hi).
    exists mt. split; [exact Hmt|lia].
  - by apply searchFrom_here with (rest := post).
Qed.

(** ** The further properties at example values *)

Lemma noLeafText_empty n : noLeafText ∅ n = true.
Proof. unfold noLeafText, leafTextOf. by rewrite lookup_empty. Qed.

(** Splits a membership in a list that is given by its elements. *)
Ltac elem_cases H :=
  repeat (apply elem_of_cons in H as [->|H]); try (by apply elem_of_nil in H).

Lemma getTasksSummary_consistent_witness :
  total (getTasksSummary ∅ tasksDoc) = Z.of_nat (length (getTasks ∅ tasksDoc))
  ∧ completed (getTasksSummary ∅ tasksDoc)
    = Z.of_nat (length (filter (λ t, task_completed t = JBool true)
                          (getTasks ∅ tasksDoc))).
Proof.
  apply (getTasksSummary_consistent ∅ tasksDoc).
  intros list item Hl Hname Hitem.
  apply inside_visited in Hl. vm_compute in Hl.
  elem_cases Hl; try discriminate Hname.
  cbn [children] in Hitem. elem_cases Hitem; reflexivity.
Defined.

Lemma getComments_document_order_witness :
  wf overrideDoc = true
  ∧ getComments ∅ overrideDoc
    = flat_map (commentsAt ∅) (preorder (children overrideDoc)).
Proof.
  split; [reflexivity|]. apply (getComments_document_order ∅ overrideDoc). reflexivity.
Defined.

Lemma getComments_complete_witness :
  wf overrideDoc = true
  ∧ (({[ "text" := JStr "hey" ]} : CommentMark) ∈ getComments ∅ overrideDoc
     ↔ comesFrom ∅ overrideDoc {[ "text" := JStr "hey" ]}).
Proof.
  split; [reflexivity|].
  apply (getComments_complete ∅ overrideDoc {[ "text" := JStr "hey" ]}). reflexivity.
Defined.

Lemma getComments_none_witness : getComments ∅ helloDoc = [].
Proof.
  apply (getComments_none ∅ helloDoc). intros n m Hn Hm.
  apply inside_visited in Hn. vm_compute in Hn. elem_cases Hn; by apply elem_of_nil in Hm.
Defined.

Lemma getTasks_document_order_witness :
  wf nestedTasksDoc = true
  ∧ getTasks ∅ nestedTasksDoc
    = flat_map (tasksAt ∅) (visited isBlock (children nestedTasksDoc)).
Proof.
  split; [reflexivity|]. apply (getTasks_document_order ∅ nestedTasksDoc). reflexivity.
Defined.

(** The tasks of the nested checklist come after those of the outer one. *)
Example getTasks_nestedTasksDoc :
  getTasks ∅ nestedTasksDoc
  = [mkTask "outer" (JBool true); mkTask "parent" JUndefined; mkTask "inner" JUndefined].
Proof. by vm_compute. Qed.

Lemma getTasks_none_witness :
  getTasks ∅ helloDoc = []
  ∧ getTasksSummary ∅ helloDoc = {| completed := 0; total := 0 |}.
Proof.
  apply (getTasks_none ∅ helloDoc). intros n Hn.
  apply inside_visited in Hn. vm_compute in Hn. elem_cases Hn; discriminate.
Defined.

Lemma getHeadings_distinct_bases_witness :
  map heading_id (getHeadings ∅ slugify distinctDoc) = ["alpha"; "beta"]
  ∧ NoDup (map heading_id (getHeadings ∅ slugify distinctDoc)).
Proof.
  destruct (getHeadings_distinct_bases ∅ slugify distinctDoc) as [Hids Hnd].
  - replace (map (baseId ∅ slugify)
               (filter (λ n, isHeadingNode n = true) (children distinctDoc)))
      with ["alpha"; "beta"] by (by vm_compute).
    apply NoDup_cons. split; [|apply NoDup_singleton].
    intros H. apply list_elem_of_singleton in H. discriminate.
  - split; [|exact Hnd]. rewrite Hids. by vm_compute.
Defined.

(** Two headings "Constructor": the base id is a property name of
    [Object.prototype], and both keep it. *)
Example getHeadings_constructor :
  map heading_id (getHeadings ∅ slugify (doc [heading "Constructor"; heading "Constructor"]))
  = ["constructor"; "constructor"].
Proof. by vm_compute. Qed.

Lemma getHeadings_identical_unique_witness :
  NoDup (map heading_id (getHeadings ∅ slugify introDoc)).
Proof.
  apply (getHeadings_identical_unique ∅ slugify "intro" introDoc); [reflexivity|].
  unfold introDoc, doc. cbn [children].
  repeat (apply Forall_cons; split); try apply List.Forall_nil;
    try (intros _; reflexivity).
  intros H. discriminate H.
Defined.

Lemma trim_noop_witness : trim ∅ tightDoc = Some tightDoc.
Proof.
  apply (trim_noop ∅ tightDoc).
  - reflexivity.
  - intros c rest [= <- <-]. reflexivity.
  - intros c rest H. unfold tightDoc, doc in H. cbn [children] in H.
    change [paragraph "a"; paragraph ""; paragraph "b"]
      with ([paragraph "a"; paragraph ""] ++ [paragraph "b"]) in H.
    apply app_inj_tail in H as [_ <-]. reflexivity.
Defined.

Lemma trim_removes_ends_witness :
  wf helloDoc = true
  ∧ ∃ l1 l2 l3,
      children helloDoc = l1 ++ l2 ++ l3
      ∧ Forall (λ c, emptyText ∅ c = true) l1
      ∧ Forall (λ c, emptyText ∅ c = true) l3
      ∧ trim ∅ helloDoc = Some (copy helloDoc l2).
Proof.
  split; [reflexivity|]. apply (trim_removes_ends ∅ helloDoc). reflexivity.
Defined.

Lemma trim_ends_nonempty_witness :
  trim ∅ helloDoc = Some (doc [paragraph "Hello"])
  ∧ (∀ c rest, children (doc [paragraph "Hello"]) = c :: rest → emptyText ∅ c = false)
  ∧ (∀ c rest, children (doc [paragraph "Hello"]) = rest ++ [c] → emptyText ∅ c = false).
Proof.
  split; [reflexivity|].
  apply (trim_ends_nonempty ∅ helloDoc (doc [paragraph "Hello"]));
    [reflexivity|vm_compute; discriminate|reflexivity].
Defined.

Lemma trim_range_witness :
  (trimEnd ∅ blankDoc < trimStart ∅ blankDoc
   ↔ Forall (λ c, emptyText ∅ c = true) (children blankDoc))
  ∧ (¬ Forall (λ c, emptyText ∅ c = true) (children blankDoc) →
     trimStart ∅ blankDoc < trimEnd ∅ blankDoc).
Proof.
  apply (trim_range ∅ blankDoc); [reflexivity|vm_compute; discriminate].
Defined.

Lemma trim_wf_witness :
  (wf (doc [paragraph "Hello"]) = true
   ∧ (children (doc [paragraph "Hello"]) = [] ↔
      children helloDoc = []
      ∨ (2 ≤ childCount helloDoc
         ∧ Forall (λ c, emptyText ∅ c = true) (children helloDoc))))
  ∧ (wf (doc []) = true
     ∧ (children (doc []) = [] ↔
        children blankDoc = []
        ∨ (2 ≤ childCount blankDoc
           ∧ Forall (λ c, emptyText ∅ c = true) (children blankDoc)))).
Proof.
  split.
  - apply (trim_wf ∅ helloDoc (doc [paragraph "Hello"])); reflexivity.
  - apply (trim_wf ∅ blankDoc (doc [])); reflexivity.
Defined.

Lemma isEmpty_whiteSpace_witness :
  isEmpty ∅ (Some blankDoc) = JsString.allWhiteSpace (deepText blankDoc)
  ∧ isEmpty ∅ (Some helloDoc) = JsString.allWhiteSpace (deepText helloDoc).
Proof.
  split.
  - apply (isEmpty_whiteSpace ∅ blankDoc);
      [reflexivity|apply noLeafText_empty|intros n _; apply noLeafText_empty].
  - apply (isEmpty_whiteSpace ∅ helloDoc);
      [reflexivity|apply noLeafText_empty|intros n _; apply noLeafText_empty].
Defined.

Lemma trim_keeps_emptiness_witness :
  ∃ d', trim ∅ helloDoc = Some d' ∧ isEmpty ∅ (Some d') = isEmpty ∅ (Some helloDoc).
Proof.
  apply (trim_keeps_emptiness ∅ helloDoc).
  - reflexivity.
  - unfold helloDoc, doc. cbn [children]. repeat constructor.
  - intros n _. apply plainType_empty.
Defined.

Lemma exampleId_uuidShaped : uuidShaped exampleId.
Proof. exists "123e4567", "e89b", "12d3", "a456", "426614174000". by vm_compute. Qed.

Lemma otherId_uuidShaped : uuidShaped otherId.
Proof. exists "0FA1B2C3", "0000", "4111", "8222", "abcdefABCDEF". by vm_compute. Qed.

Lemma attachmentRedirectRegex_sound_witness :
  ∃ pre lit id post,
    redirectExample = pre +:+ lit +:+ id +:+ post
    ∧ 4 = Z.of_nat (String.length pre)
    ∧ redirectText +:+ exampleId = lit +:+ id
    ∧ canonicalText lit = canonicalText redirectText
    ∧ uuidShaped id
    ∧ Some exampleId = Some id.
Proof.
  apply (attachmentRedirectRegex_sound redirectExample
           {| match_index := 4; match_text := redirectText +:+ exampleId;
              match_captures := [(Some "id", exampleId)] |}).
  reflexivity.
Defined.

Lemma attachmentRedirectRegex_complete_witness :
  exec attachmentRedirectRegex
    ("/API/Attachments.Redirect?ID=" +:+ otherId +:+ "&x=1")
  = Some {| match_index := 0;
            match_text := "/API/Attachments.Redirect?ID=" +:+ otherId;
            match_captures := [(Some "id", otherId)] |}.
Proof.
  apply (attachmentRedirectRegex_complete "" "/API/Attachments.Redirect?ID="
           otherId "&x=1"); [reflexivity|apply otherId_uuidShaped].
Defined.

Lemma attachmentPublicRegex_sound_witness :
  ∃ pre lit key id post,
    publicExample = pre +:+ lit +:+ key +:+ "/" +:+ id +:+ post
    ∧ 12 = Z.of_nat (String.length pre)
    ∧ "Public/" +:+ exampleId +:+ "/" +:+ otherId = lit +:+ key +:+ "/" +:+ id
    ∧ canonicalText lit = canonicalText publicText
    ∧ uuidShaped key ∧ uuidShaped id
    ∧ [(None, exampleId); (Some "id", otherId)] = [(None, key); (Some "id", id)]
    ∧ Some otherId = Some id.
Proof.
  apply (attachmentPublicRegex_sound publicExample
           {| match_index := 12;
              match_text := "Public/" +:+ exampleId +:+ "/" +:+ otherId;
              match_captures := [(None, exampleId); (Some "id", otherId)] |}).
  reflexivity.
Defined.

Lemma attachmentPublicRegex_complete_witness :
  exec attachmentPublicRegex ("PUBLIC/" +:+ exampleId +:+ "/" +:+ otherId +:+ "/a.png")
  = Some {| match_index := 0;
            match_text := "PUBLIC/" +:+ exampleId +:+ "/" +:+ otherId;
            match_captures := [(None, exampleId); (Some "id", otherId)] |}.
Proof.
  apply (attachmentPublicRegex_complete "" "PUBLIC/" exampleId otherId "/a.png");
    [reflexivity|apply exampleId_uuidShaped|apply otherId_uuidShaped].
Defined.
